(** * ordered.Map: a Go map with deterministic iteration order

    A shallow embedding of package [ordered] (github.com/mdlayher/ordered):
    the [Map] type of [map.go], its iteration cursor [MapIterator], and the
    range-over-func method [All] of [map_go122.go].

    Go objects live in a store and are reached through pointers, so that two
    cursors opened on one map share its iterator counter.  A panic is an
    outcome of its own; the store at the point of the panic is kept, as a
    caller that recovers would see it. *)

From Stdlib Require Import ZArith Lia String.
From stdpp Require Import base option list gmap strings sorting.

Set Warnings "-clear-no-such-hyp".

Open Scope Z_scope.

(** ** Go preliminaries *)

(** The zero value of a Go type. *)
Class Zero (V : Type) := zero : V.
Global Hint Mode Zero ! : typeclass_instances.

Global Instance Z_zero : Zero Z := 0.
Global Instance nat_zero : Zero nat := 0%nat.
Global Instance string_zero : Zero string := EmptyString.

(** [int32] arithmetic wraps around. *)
Definition int32 (z : Z) : Z := (z + 2 ^ 31) `mod` 2 ^ 32 - 2 ^ 31.

(** [atomic.AddInt32(&x, delta)] returns the new value, which is also stored. *)
Definition atomic_AddInt32 (x delta : Z) : Z := int32 (x + delta).

(** A program either returns or panics with a message. *)
Inductive outcome (A : Type) : Type :=
| Ret (a : A)
| Panic (msg : string).
Global Arguments Ret {A} a.
Global Arguments Panic {A} msg.

Definition returns {A} (o : outcome A) : bool :=
  match o with Ret _ => true | Panic _ => false end.

Definition panics {A} (o : outcome A) : bool := negb (returns o).

(** Panic messages of the package, and the two run-time panics its code can
    reach. *)
Definition msg_NewMap : string :=
  "ordered: NewMap must use a non-nil less function".
Definition msg_Map_check : string :=
  "ordered: a Map must be constructed using NewMap".
Definition msg_Map_write : string :=
  "ordered: write to Map while MapIterator is not closed".
Definition msg_Close : string :=
  "ordered: call to MapIterator.Close while MapIterator is not open".
Definition msg_MapIterator_check : string :=
  "ordered: a MapIterator must be constructed using Map.Iter".
Definition msg_nil_deref : string :=
  "runtime error: invalid memory address or nil pointer dereference".
Definition msg_nil_map : string :=
  "assignment to entry in nil map".
Definition msg_bounds : string :=
  "runtime error: slice bounds out of range".

(** ** Comparators *)

(** [less a b] means that [a] sorts strictly before [b]. *)
Definition incomparable {K} (less : K → K → bool) (a b : K) : Prop :=
  less a b = false ∧ less b a = false.

Record StrictWeakOrder {K} (less : K → K → bool) : Prop := {
  swo_irrefl a : less a a = false;
  swo_trans a b c : less a b = true → less b c = true → less a c = true;
  swo_incomparable_trans a b c :
    incomparable less a b → incomparable less b c → incomparable less a c
}.

(** A comparator that also orders every two distinct keys. *)
Definition Connected {K} (less : K → K → bool) : Prop :=
  ∀ a b, a ≠ b → less a b = true ∨ less b a = true.

(** [b] does not sort before [a]: the order of two neighbours of a sorted
    slice. *)
Definition not_after {K} (less : K → K → bool) (a b : K) : Prop :=
  less b a = false.

Definition before {K} (less : K → K → bool) (a b : K) : Prop :=
  less a b = true.

Global Instance not_after_dec {K} (less : K → K → bool) a b :
  Decision (not_after less a b).
Proof. unfold not_after. apply _. Defined.

Global Instance before_dec {K} (less : K → K → bool) a b :
  Decision (before less a b).
Proof. unfold before. apply _. Defined.

(** ** golang.org/x/exp/slices *)

(** [slices.SortFunc(x, less)] is a dependency of the package.  What the
    package relies on is its contract: the slice is permuted, and for a
    strict weak ordering no element is followed by one that sorts before
    it. *)
Class Sorter (K : Type) := {
  SortFunc : list K → (K → K → bool) → list K;
  SortFunc_perm l less : SortFunc l less ≡ₚ l;
  SortFunc_sorted l less :
    StrictWeakOrder less → StronglySorted (not_after less) (SortFunc l less)
}.

(** The library sorts slices of at most twelve elements by insertion
    ([insertionSortLessFunc]): element [i] is swapped towards the front
    while it sorts before its left neighbour.  [sift less x rl] does this
    for [x] below the reversed prefix [rl]. *)
Fixpoint sift {K} (less : K → K → bool) (x : K) (rl : list K) : list K :=
  match rl with
  | [] => [x]
  | y :: rl' => if less x y then y :: sift less x rl' else x :: rl
  end.

Definition insertionSortLessFunc {K} (data : list K) (less : K → K → bool)
  : list K :=
  reverse (foldl (λ rl x, sift less x rl) [] data).

(** [slices.Index(s, v)]: the index of the first occurrence of [v], or -1. *)
Fixpoint slices_Index {K} `{EqDecision K} (s : list K) (v : K) : Z :=
  match s with
  | [] => -1
  | x :: s' =>
      if decide (v = x) then 0
      else let i := slices_Index s' v in
           if decide (i = -1) then -1 else i + 1
  end.

(** [slices.Delete(s, i, j)] removes [s[i:j]]; it panics when the bounds are
    not [0 <= i <= j <= len(s)]. *)
Definition slices_Delete {K} (s : list K) (i j : Z) : option (list K) :=
  if decide (0 ≤ i ∧ i ≤ j ∧ j ≤ Z.of_nat (length s))
  then Some (take (Z.to_nat i) s ++ drop (Z.to_nat j) s)
  else None.

(** The slice without the first occurrence of [v]: what [Delete] removes at
    the index that [Index] finds. *)
Fixpoint remove_first {K} `{EqDecision K} (v : K) (s : list K) : list K :=
  match s with
  | [] => []
  | x :: s' => if decide (v = x) then s' else x :: remove_first v s'
  end.

(** [Less] is the comparison of naturally ordered key types, [a < b]. *)
Definition Less_Z (a b : Z) : bool := Z.ltb a b.
Definition Less_string (a b : string) : bool := String.ltb a b.

(** A comparison function that is not [Less]: integers ordered by their
    tens, so that 1 and 2 are distinct keys of which neither sorts before
    the other. *)
Definition Less_tens (a b : Z) : bool := Z.ltb (a / 10) (b / 10).

(** ** The data model *)

(** An [op] is a read-only or read-write operation. *)
Inductive op : Type := ro | rw.

Global Instance op_eq_dec : EqDecision op.
Proof. solve_decision. Defined.

(** A pointer is nil or the address of an object of the store. *)
Definition ptr : Type := option nat.

Section ordered.
Context {K V : Type} `{Countable K} `{Zero V} `{Sorter K}.

(** [Map]: the count of live iterators, the sorted keys with their
    comparison function, and the underlying Go map.  A nil function and a nil
    Go map are [None]; both are nil in the zero value of the struct. *)
Record Map : Type := mkMap {
  map_iter : Z;
  map_keys : list K;
  map_less : option (K → K → bool);
  map_m : option (gmap K V)
}.

Definition zero_Map : Map :=
  {| map_iter := 0; map_keys := []; map_less := None; map_m := None |}.

Record KeyValue : Type := mkKeyValue { Key : K; Value : V }.

(** [MapIterator]: the map it ranges over and the index of the next key.  The
    index starts at zero and only grows while below [len(keys)]. *)
Record MapIterator : Type := mkMapIterator {
  mi_m : ptr;
  mi_i : nat
}.

Definition zero_MapIterator : MapIterator := {| mi_m := None; mi_i := 0 |}.

(** The store: every [Map] and every [MapIterator] allocated so far, at the
    address that is its position. *)
Record heap : Type := mkHeap {
  maps : list Map;
  cursors : list MapIterator
}.

Definition empty_heap : heap := {| maps := []; cursors := [] |}.

(** ** Programs over the store *)

Definition go (A : Type) : Type := heap → outcome A * heap.

Definition ret {A} (a : A) : go A := λ h, (Ret a, h).

Definition panic {A} (msg : string) : go A := λ h, (Panic msg, h).

Definition bind {A B} (c : go A) (k : A → go B) : go B :=
  λ h, match c h with
       | (Ret a, h') => k a h'
       | (Panic msg, h') => (Panic msg, h')
       end.

Notation "'let*' x := c 'in' k" := (bind c (λ x, k))
  (at level 10, x name, c at level 100, k at level 200, only parsing).
Notation "c ;;; k" := (bind c (λ _, k))
  (at level 100, k at level 200, right associativity, only parsing).

(** Reading and writing through a [*Map] and a [*MapIterator]. *)
Definition load_Map (m : ptr) : go Map :=
  λ h, match m ≫= (maps h !!.) with
       | Some mp => (Ret mp, h)
       | None => (Panic msg_nil_deref, h)
       end.

Definition store_Map (m : ptr) (mp : Map) : go unit :=
  λ h, match m with
       | Some a =>
           if decide (a < length (maps h))%nat
           then (Ret (), {| maps := <[a := mp]> (maps h); cursors := cursors h |})
           else (Panic msg_nil_deref, h)
       | None => (Panic msg_nil_deref, h)
       end.

Definition new_Map (mp : Map) : go ptr :=
  λ h, (Ret (Some (length (maps h))),
        {| maps := maps h ++ [mp]; cursors := cursors h |}).

Definition load_MapIterator (mi : ptr) : go MapIterator :=
  λ h, match mi ≫= (cursors h !!.) with
       | Some it => (Ret it, h)
       | None => (Panic msg_nil_deref, h)
       end.

Definition store_MapIterator (mi : ptr) (it : MapIterator) : go unit :=
  λ h, match mi with
       | Some a =>
           if decide (a < length (cursors h))%nat
           then (Ret (), {| maps := maps h; cursors := <[a := it]> (cursors h) |})
           else (Panic msg_nil_deref, h)
       | None => (Panic msg_nil_deref, h)
       end.

Definition new_MapIterator (it : MapIterator) : go ptr :=
  λ h, (Ret (Some (length (cursors h))),
        {| maps := maps h; cursors := cursors h ++ [it] |}).

(** Go map operations; a nil map reads as empty and cannot be assigned to. *)
Definition map_index (g : option (gmap K V)) (k : K) : option V :=
  g ≫= (.!! k).

Definition map_assign (g : option (gmap K V)) (k : K) (v : V)
  : option (gmap K V) :=
  (λ g', <[k := v]> g') <$> g.

Definition map_delete (g : option (gmap K V)) (k : K) : option (gmap K V) :=
  (λ g', delete k g') <$> g.

Definition maps_Clear (g : option (gmap K V)) : option (gmap K V) :=
  (λ _, ∅) <$> g.

(** ** The package *)

(** [NewMap(less)]: panics on a nil [less], else a fresh empty map. *)
Definition NewMap (less : option (K → K → bool)) : go ptr :=
  match less with
  | None => panic msg_NewMap
  | Some _ =>
      new_Map {| map_iter := 0; map_keys := []; map_less := less;
                 map_m := Some ∅ |}
  end.

(** [m.check(op)] *)
Definition Map_check (m : ptr) (o : op) : go unit :=
  λ h, match m ≫= (maps h !!.) with
       | None => (Panic msg_Map_check, h)
       | Some mp =>
           match map_less mp with
           | None => (Panic msg_Map_check, h)
           | Some _ =>
               if decide (o = rw ∧ map_iter mp ≠ 0)
               then (Panic msg_Map_write, h)
               else (Ret (), h)
           end
       end.

(** [m.Get(k)] *)
Definition Map_Get (m : ptr) (k : K) : go V :=
  Map_check m ro ;;;
  let* mp := load_Map m in
  ret (default zero (map_index (map_m mp) k)).

(** [m.TryGet(k)] *)
Definition Map_TryGet (m : ptr) (k : K) : go (V * bool) :=
  Map_check m ro ;;;
  let* mp := load_Map m in
  match map_index (map_m mp) k with
  | Some v => ret (v, true)
  | None => ret (zero, false)
  end.

(** [m.Len()] *)
Definition Map_Len (m : ptr) : go nat :=
  Map_check m ro ;;;
  let* mp := load_Map m in
  ret (length (map_keys mp)).

(** [m.Set(k, v)] *)
Definition Map_Set (m : ptr) (k : K) (v : V) : go unit :=
  Map_check m rw ;;;
  let* mp := load_Map m in
  (match map_index (map_m mp) k with
   | Some _ => ret ()
   | None =>
       let keys := map_keys mp ++ [k] in
       match map_less mp with
       | Some less =>
           store_Map m {| map_iter := map_iter mp;
                          map_keys := SortFunc keys less;
                          map_less := map_less mp; map_m := map_m mp |}
       | None => panic msg_nil_deref
       end
   end) ;;;
  let* mp := load_Map m in
  match map_assign (map_m mp) k v with
  | Some g =>
      store_Map m {| map_iter := map_iter mp; map_keys := map_keys mp;
                     map_less := map_less mp; map_m := Some g |}
  | None => panic msg_nil_map
  end.

(** [m.Delete(k)] *)
Definition Map_Delete (m : ptr) (k : K) : go unit :=
  Map_check m rw ;;;
  let* mp := load_Map m in
  let i := slices_Index (map_keys mp) k in
  (if decide (i ≠ -1) then
     match slices_Delete (map_keys mp) i (i + 1) with
     | Some keys =>
         store_Map m {| map_iter := map_iter mp; map_keys := keys;
                        map_less := map_less mp; map_m := map_m mp |}
     | None => panic msg_bounds
     end
   else ret ()) ;;;
  let* mp := load_Map m in
  store_Map m {| map_iter := map_iter mp; map_keys := map_keys mp;
                 map_less := map_less mp; map_m := map_delete (map_m mp) k |}.

(** [m.Reset()]: [keys[:0]] is the empty slice over the same array. *)
Definition Map_Reset (m : ptr) : go unit :=
  Map_check m rw ;;;
  let* mp := load_Map m in
  store_Map m {| map_iter := map_iter mp; map_keys := take 0 (map_keys mp);
                 map_less := map_less mp; map_m := maps_Clear (map_m mp) |}.

(** [m.Range()] *)
Definition Map_Range (m : ptr) : go (list KeyValue) :=
  Map_check m ro ;;;
  let* mp := load_Map m in
  ret (foldl (λ kvs k,
         kvs ++ [{| Key := k;
                    Value := default zero (map_index (map_m mp) k) |}])
       [] (map_keys mp)).

(** [m.Iter()] *)
Definition Map_Iter (m : ptr) : go ptr :=
  Map_check m ro ;;;
  let* mp := load_Map m in
  store_Map m {| map_iter := atomic_AddInt32 (map_iter mp) 1;
                 map_keys := map_keys mp; map_less := map_less mp;
                 map_m := map_m mp |} ;;;
  new_MapIterator {| mi_m := m; mi_i := 0 |}.

(** [mi.check()] *)
Definition MapIterator_check (mi : ptr) : go unit :=
  λ h, match mi ≫= (cursors h !!.) with
       | None => (Panic msg_MapIterator_check, h)
       | Some it =>
           match mi_m it with
           | None => (Panic msg_MapIterator_check, h)
           | Some _ => (Ret (), h)
           end
       end.

(** [mi.Close()]: the counter is decremented before it is tested.  The final
    [mi = nil] assigns the method's own receiver variable and changes neither
    the cursor nor the caller's pointer to it. *)
Definition MapIterator_Close (mi : ptr) : go unit :=
  MapIterator_check mi ;;;
  let* it := load_MapIterator mi in
  let* mp := load_Map (mi_m it) in
  let n := atomic_AddInt32 (map_iter mp) (-1) in
  store_Map (mi_m it) {| map_iter := n; map_keys := map_keys mp;
                         map_less := map_less mp; map_m := map_m mp |} ;;;
  if decide (n < 0) then panic msg_Close else ret ().

(** [mi.Next()]: nil, here [None], when no key is left. *)
Definition MapIterator_Next (mi : ptr) : go (option KeyValue) :=
  MapIterator_check mi ;;;
  let* it := load_MapIterator mi in
  let* mp := load_Map (mi_m it) in
  match map_keys mp !! mi_i it with
  | None => ret None
  | Some k =>
      store_MapIterator mi {| mi_m := mi_m it; mi_i := S (mi_i it) |} ;;;
      let* it := load_MapIterator mi in
      let* mp := load_Map (mi_m it) in
      ret (Some {| Key := k; Value := default zero (map_index (map_m mp) k) |})
  end.

(** [m.All()] applied to [yield].  The range clause reads [m.keys] once; each
    value is read from the map when its key is reached.  The keys are the
    list read at entry: what a callback that adds or removes a key writes
    into the slice's array is not seen by the rest of the loop. *)
Fixpoint All_loop (m : ptr) (ks : list K) (yield : K → V → go bool)
  : go unit :=
  match ks with
  | [] => ret ()
  | k :: ks' =>
      let* mp := load_Map m in
      let* continue := yield k (default zero (map_index (map_m mp) k)) in
      if continue then All_loop m ks' yield else ret ()
  end.

Definition Map_All (m : ptr) (yield : K → V → go bool) : go unit :=
  let* mp := load_Map m in
  All_loop m (map_keys mp) yield.

(** ** Constructed maps *)

(** The store [h] with the map at address [a] replaced. *)
Definition put_Map (h : heap) (a : nat) (mp : Map) : heap :=
  {| maps := <[a := mp]> (maps h); cursors := cursors h |}.

(** What [NewMap] establishes and every method keeps: the comparison function
    and the Go map are there, [keys] lists the keys of the Go map once each,
    and is sorted whenever the function is a strict weak ordering. *)
Definition wf_Map (less : K → K → bool) (mp : Map) : Prop :=
  ∃ g,
    map_less mp = Some less ∧ map_m mp = Some g ∧
    NoDup (map_keys mp) ∧
    (∀ k, k ∈ map_keys mp ↔ is_Some (g !! k)) ∧
    (StrictWeakOrder less → StronglySorted (not_after less) (map_keys mp)).

Definition constructed (less : K → K → bool) (h : heap) (m : ptr) : Prop :=
  ∃ mp, m ≫= (maps h !!.) = Some mp ∧ wf_Map less mp.

(** The key/value pairs of a map, in the order of [keys]. *)
Definition pairs (mp : Map) : list KeyValue :=
  (λ k, {| Key := k; Value := default zero (map_index (map_m mp) k) |})
    <$> map_keys mp.

(** ** Clients *)

(** One call of a client on the map [m] or on one of its cursors. *)
Inductive call : Type :=
| CGet (k : K)
| CTryGet (k : K)
| CLen
| CSet (k : K) (v : V)
| CDelete (k : K)
| CReset
| CRange
| CIter
| CClose (mi : ptr)
| CNext (mi : ptr).

Definition discard {A} (c : go A) : go unit := c ;;; ret ().

Definition do_call (m : ptr) (c : call) : go unit :=
  match c with
  | CGet k => discard (Map_Get m k)
  | CTryGet k => discard (Map_TryGet m k)
  | CLen => discard (Map_Len m)
  | CSet k v => Map_Set m k v
  | CDelete k => Map_Delete m k
  | CReset => Map_Reset m
  | CRange => discard (Map_Range m)
  | CIter => discard (Map_Iter m)
  | CClose mi => MapIterator_Close mi
  | CNext mi => discard (MapIterator_Next mi)
  end.

(** A client that recovers from every panic and goes on: the store after a
    sequence of calls. *)
Definition exec (m : ptr) (cs : list call) (h : heap) : heap :=
  foldl (λ h c, snd (do_call m c h)) h cs.

Definition is_write (c : call) : bool :=
  match c with CSet _ _ | CDelete _ => true | _ => false end.

(** A session keeps, besides the store, the cursors that [Iter] has returned
    and on which [Close] has not been called. *)
Record session : Type := mkSession {
  store : heap;
  unclosed : list ptr
}.

Definition session_step (m : ptr) (s : session) (c : call) : session :=
  match c with
  | CIter =>
      match Map_Iter m (store s) with
      | (Ret mi, h) => {| store := h; unclosed := mi :: unclosed s |}
      | (Panic _, h) => {| store := h; unclosed := unclosed s |}
      end
  | CClose mi =>
      {| store := snd (MapIterator_Close mi (store s));
         unclosed := filter (λ c, c ≠ mi) (unclosed s) |}
  | _ => {| store := snd (do_call m c (store s)); unclosed := unclosed s |}
  end.

Definition session_run (m : ptr) (cs : list call) (s : session) : session :=
  foldl (session_step m) s cs.

(** The client closes only cursors that it got from [Iter] and has not
    closed before. *)
Fixpoint disciplined (m : ptr) (cs : list call) (s : session) : Prop :=
  match cs with
  | [] => True
  | c :: cs' =>
      match c with CClose mi => mi ∈ unclosed s | _ => True end
      ∧ disciplined m cs' (session_step m s c)
  end.

(** What a disciplined session keeps: the map at [a] is constructed and its
    iterator count is the number of unclosed cursors, as an [int32]; the
    unclosed cursors are distinct and bound to the map. *)
Definition session_inv (less : K → K → bool) (a : nat) (s : session)
  : Prop :=
  (∃ mp, maps (store s) !! a = Some mp ∧ wf_Map less mp ∧
         map_iter mp = int32 (Z.of_nat (length (unclosed s)))) ∧
  NoDup (unclosed s) ∧
  (∀ mi, mi ∈ unclosed s →
     ∃ c it, mi = Some c ∧ cursors (store s) !! c = Some it ∧
             mi_m it = Some a).

(** [Next] called [n] times on the cursor [mi], collecting the pairs it
    returns until it returns nil. *)
Fixpoint drain (n : nat) (mi : ptr) : go (list KeyValue) :=
  match n with
  | O => ret []
  | S n' =>
      let* r := MapIterator_Next mi in
      match r with
      | None => ret []
      | Some kv => let* kvs := drain n' mi in ret (kv :: kvs)
      end
  end.

(** Two cursors advanced in the order given by a schedule ([false]: the
    first, [true]: the second); the pairs each of them returned, in order. *)
Fixpoint interleave (sched : list bool) (mi0 mi1 : ptr)
  : go (list KeyValue * list KeyValue) :=
  match sched with
  | [] => ret ([], [])
  | b :: sched' =>
      let* r := MapIterator_Next (if b then mi1 else mi0) in
      let* rest := interleave sched' mi0 mi1 in
      let out := option_list r in
      ret (if b then (rest.1, out ++ rest.2) else (out ++ rest.1, rest.2))
  end.

End ordered.

Global Arguments Map K V {_ _}.
Global Arguments KeyValue K V : clear implicits.
Global Arguments heap K V {_ _}.
Global Arguments go K V {_ _} A.
Global Arguments call K V : clear implicits.
Global Arguments session K V {_ _}.

Notation "'let*' x := c 'in' k" := (bind c (λ x, k))
  (at level 10, x name, c at level 100, k at level 200, only parsing).
Notation "c ;;; k" := (bind c (λ _, k))
  (at level 100, k at level 200, right associativity, only parsing).

(** The sorter the library runs on slices of at most twelve elements. *)
Section insertion.
Context {K : Type} (less : K → K → bool).

Lemma swo_asym a b :
  StrictWeakOrder less → less a b = true → less b a = false.
Proof.
  intros O Hab. destruct (less b a) eqn:Hba; [|done].
  by rewrite <- (swo_irrefl less O a), (swo_trans less O a b a).
Qed.

(** Not sorting before is transitive: the form of the ordering that a sort
    relies on. *)
Lemma swo_not_less_trans a b c :
  StrictWeakOrder less →
  less a b = false → less b c = false → less a c = false.
Proof.
  intros O Hab Hbc. destruct (less a c) eqn:Hac; [|done].
  destruct (less b a) eqn:Hba.
  { by rewrite <- Hbc, (swo_trans less O b a c). }
  destruct (less c b) eqn:Hcb.
  { by rewrite <- Hab, (swo_trans less O a c b). }
  destruct (swo_incomparable_trans less O a b c) as [Hac' _]; [done..|].
  congruence.
Qed.

Lemma sift_perm x rl : sift less x rl ≡ₚ x :: rl.
Proof.
  induction rl as [|y rl IH]; simpl; [done|].
  destruct (less x y); [|done].
  by rewrite IH, Permutation_swap.
Qed.

Lemma sift_sorted x rl :
  StrictWeakOrder less →
  StronglySorted (flip (not_after less)) rl →
  StronglySorted (flip (not_after less)) (sift less x rl).
Proof.
  intros O. induction rl as [|y rl IH]; simpl; intros Hs.
  { repeat constructor. }
  apply StronglySorted_cons in Hs as [Hy Hs].
  destruct (less x y) eqn:Hxy.
  - apply StronglySorted_cons. split; [|by apply IH].
    rewrite sift_perm. constructor; [|done].
    by apply swo_asym.
  - apply StronglySorted_cons. split; [|by apply StronglySorted_cons].
    constructor; [done|].
    eapply Forall_impl; [exact Hy|]. intros z Hz. unfold flip, not_after in *.
    by apply swo_not_less_trans with y.
Qed.

Lemma foldl_sift_perm data rl :
  foldl (λ rl x, sift less x rl) rl data ≡ₚ data ++ rl.
Proof.
  revert rl. induction data as [|x data IH]; intros rl; simpl; [done|].
  by rewrite IH, sift_perm, Permutation_middle.
Qed.

Lemma foldl_sift_sorted data rl :
  StrictWeakOrder less →
  StronglySorted (flip (not_after less)) rl →
  StronglySorted (flip (not_after less))
    (foldl (λ rl x, sift less x rl) rl data).
Proof.
  intros O. revert rl. induction data as [|x data IH]; intros rl Hs; simpl.
  - done.
  - by apply IH, sift_sorted.
Qed.

Lemma StronglySorted_reverse (R : relation K) l :
  StronglySorted (flip R) l → StronglySorted R (reverse l).
Proof.
  induction l as [|x l IH]; intros Hs; [constructor|].
  apply StronglySorted_cons in Hs as [Hx Hs].
  rewrite reverse_cons. apply StronglySorted_app. split_and!.
  - intros a b Ha Hb. apply list_elem_of_singleton in Hb as ->.
    rewrite elem_of_reverse in Ha. rewrite Forall_forall in Hx. by apply Hx.
  - by apply IH.
  - repeat constructor.
Qed.

Lemma insertionSortLessFunc_perm data :
  insertionSortLessFunc data less ≡ₚ data.
Proof.
  unfold insertionSortLessFunc.
  by rewrite reverse_Permutation, foldl_sift_perm, app_nil_r.
Qed.

Lemma insertionSortLessFunc_sorted data :
  StrictWeakOrder less →
  StronglySorted (not_after less) (insertionSortLessFunc data less).
Proof.
  intros O. apply StronglySorted_reverse, foldl_sift_sorted; [done|constructor].
Qed.

End insertion.

Global Instance insertion_Sorter (K : Type) : Sorter K := {|
  SortFunc := insertionSortLessFunc;
  SortFunc_perm l less := insertionSortLessFunc_perm less l;
  SortFunc_sorted l less := insertionSortLessFunc_sorted less l
|}.

(** ** Observations *)

Section observations.
Context {K V : Type} `{Countable K} `{Zero V}.

(** The iterator count of the map behind a pointer. *)
Definition iter_count (h : heap K V) (m : ptr) : option Z :=
  map_iter <$> (m ≫= (maps h !!.)).

(** A loop over a list of pairs that stops when [yield] returns false: the
    loop of [All], over pairs that are given instead of read from the map. *)
Fixpoint for_each (kvs : list (KeyValue K V)) (yield : K → V → go K V bool)
  : go K V unit :=
  match kvs with
  | [] => ret ()
  | kv :: kvs' =>
      let* continue := yield (Key kv) (Value kv) in
      if continue then for_each kvs' yield else ret ()
  end.

End observations.

(** ** Concrete clients *)

Section clients.
Context `{Sorter string}.
Open Scope string_scope.

(** The scenario of the package's example: three insertions, an update and a
    deletion, a reset; the two results of [Range], and the final results of
    [Len] and of [TryGet] on foo. *)
Definition scenario
  : go string Z
      (list (KeyValue string Z) * list (KeyValue string Z) * nat * (Z * bool))
  :=
  let* m := NewMap (Some Less_string) in
  Map_Set m "foo" 1 ;;;
  Map_Set m "bar" 2 ;;;
  Map_Set m "baz" 3 ;;;
  let* r1 := Map_Range m in
  Map_Set m "foo" 10 ;;;
  Map_Delete m "bar" ;;;
  let* r2 := Map_Range m in
  Map_Reset m ;;;
  let* n := Map_Len m in
  let* t := Map_TryGet m "foo" in
  ret (r1, r2, n, t).

(** Two cursors are opened on a map with one key; the first is closed,
    advanced, and closed again; then a write.  The result: what [Next]
    returned on the closed cursor. *)
Definition use_after_Close : go string Z (option (KeyValue string Z)) :=
  let* m := NewMap (Some Less_string) in
  Map_Set m "foo" 1 ;;;
  let* mi0 := Map_Iter m in
  let* mi1 := Map_Iter m in
  MapIterator_Close mi0 ;;;
  let* kv := MapIterator_Next mi0 in
  MapIterator_Close mi0 ;;;
  Map_Set m "bar" 2 ;;;
  ret kv.

(** The package's test of the same misuse: one cursor, closed twice. *)
Definition close_twice : go string Z unit :=
  let* m := NewMap (Some Less_string) in
  let* mi := Map_Iter m in
  MapIterator_Close mi ;;;
  MapIterator_Close mi.

End clients.

(** Stores for running the properties: a map with the keys 1 and 2, filled
    in either order; a map with a cursor that has been closed; an empty map
    with a cursor; and a second map beside a map that is being iterated. *)
Definition sample : heap Z Z :=
  exec (Some 0%nat) [CSet 2 20; CSet 1 10]
    (NewMap (Some Less_Z) empty_heap).2.

Definition sample_rev : heap Z Z :=
  exec (Some 0%nat) [CSet 1 10; CSet 2 20]
    (NewMap (Some Less_Z) empty_heap).2.

Definition sample_closed : heap Z Z :=
  exec (Some 0%nat) [CSet 1 10; CIter; CClose (Some 0%nat)]
    (NewMap (Some Less_Z) empty_heap).2.

Definition sample_cursor : heap Z Z :=
  exec (Some 0%nat) [CIter] (NewMap (Some Less_Z) empty_heap).2.

Definition sample_two : heap Z Z :=
  (NewMap (Some Less_Z)
     (exec (Some 0%nat) [CSet 1 10; CIter]
        (NewMap (Some Less_Z) empty_heap).2)).2.

(** * Properties *)

(** ** Slices *)

Section slices.
Context {K : Type} `{EqDecision K}.
Implicit Types (s : list K) (v x : K).

Lemma remove_first_notin v s : v ∉ s → remove_first v s = s.
Proof.
  induction s as [|x s IH]; simpl; [done|].
  intros [? ?]%not_elem_of_cons. rewrite decide_False by done. by rewrite IH.
Qed.

Lemma remove_first_subseteq v s x : x ∈ remove_first v s → x ∈ s.
Proof.
  induction s as [|y s IH]; simpl; [done|].
  case_decide; set_solver.
Qed.

Lemma remove_first_elem_of v s x :
  NoDup s → x ∈ remove_first v s ↔ x ∈ s ∧ x ≠ v.
Proof.
  induction s as [|y s IH]; simpl; intros Hnd; [set_solver|].
  apply NoDup_cons in Hnd as [Hy Hnd]. case_decide; set_solver.
Qed.

Lemma remove_first_NoDup v s : NoDup s → NoDup (remove_first v s).
Proof.
  induction s as [|y s IH]; simpl; intros Hnd; [done|].
  apply NoDup_cons in Hnd as [Hy Hnd]. case_decide; [done|].
  apply NoDup_cons. split; [|by apply IH].
  intros ?%remove_first_subseteq. done.
Qed.

Lemma remove_first_sorted (R : relation K) v s :
  StronglySorted R s → StronglySorted R (remove_first v s).
Proof.
  induction s as [|y s IH]; simpl; intros Hs; [done|].
  apply StronglySorted_cons in Hs as [Hy Hs]. case_decide; [done|].
  apply StronglySorted_cons. split; [|by apply IH].
  rewrite Forall_forall in *. intros x ?%remove_first_subseteq. by apply Hy.
Qed.

Lemma remove_first_length v s :
  v ∈ s → S (length (remove_first v s)) = length s.
Proof.
  induction s as [|y s IH]; simpl; [by intros ?%elem_of_nil|].
  intros Hv. case_decide; [done|]. simpl. f_equal. apply IH. set_solver.
Qed.

(** [Index] finds no index exactly for a value that is not in the slice; the
    index it finds is in range, and deleting there removes the first
    occurrence. *)
Lemma slices_Index_spec s v :
  (slices_Index s v = -1 ∧ v ∉ s) ∨
  (0 ≤ slices_Index s v < Z.of_nat (length s) ∧ v ∈ s ∧
   take (Z.to_nat (slices_Index s v)) s
     ++ drop (Z.to_nat (slices_Index s v + 1)) s = remove_first v s).
Proof.
  induction s as [|x s IH]; simpl.
  { left. split; [done|]. apply not_elem_of_nil. }
  destruct (decide (v = x)) as [->|Hne].
  { right. split; [lia|]. split; [left|]. simpl. by rewrite drop_0. }
  destruct IH as [[Hi Hv]|(Hi & Hv & Heq)].
  - left. rewrite Hi. split; [done|]. by apply not_elem_of_cons.
  - right. rewrite decide_False by lia. split; [lia|]. split; [by right|].
    replace (Z.to_nat (slices_Index s v + 1)) with
      (S (Z.to_nat (slices_Index s v))) in * by lia.
    replace (Z.to_nat (slices_Index s v + 1 + 1)) with
      (S (S (Z.to_nat (slices_Index s v)))) by lia.
    simpl. by rewrite <- Heq.
Qed.

Lemma slices_Delete_at_Index s v :
  slices_Index s v ≠ -1 →
  slices_Delete s (slices_Index s v) (slices_Index s v + 1)
    = Some (remove_first v s).
Proof.
  intros Hi. destruct (slices_Index_spec s v) as [[? _]|(Hr & _ & Heq)]; [done|].
  unfold slices_Delete. rewrite decide_True by lia. by rewrite Heq.
Qed.

Lemma slices_Index_notin s v : slices_Index s v = -1 ↔ v ∉ s.
Proof.
  destruct (slices_Index_spec s v) as [[? ?]|(Hr & ? & _)]; [done|].
  split; [lia|done].
Qed.

End slices.

Section facts.
Context {K V : Type} `{Countable K} `{Zero V} `{Sorter K}.
Implicit Types (h : heap K V) (mp : Map K V) (m mi : ptr) (a : nat) (k : K)
  (v : V) (less : K → K → bool) (g : gmap K V).

(** ** The store *)

Lemma load_Map_eq h a mp :
  maps h !! a = Some mp → load_Map (Some a) h = (Ret mp, h).
Proof. intros Ha. unfold load_Map. simpl. by rewrite Ha. Qed.

Lemma store_Map_eq h a mp mp' :
  maps h !! a = Some mp → store_Map (Some a) mp' h = (Ret (), put_Map h a mp').
Proof.
  intros Ha. unfold store_Map. apply lookup_lt_Some in Ha.
  by case_decide.
Qed.

Lemma lookup_put_Map h a mp mp' :
  maps h !! a = Some mp → maps (put_Map h a mp') !! a = Some mp'.
Proof. intros Ha. simpl. apply list_lookup_insert_eq. by eapply lookup_lt_Some. Qed.

Lemma lookup_put_Map_ne h a b mp' :
  a ≠ b → maps (put_Map h a mp') !! b = maps h !! b.
Proof. intros. simpl. by apply list_lookup_insert_ne. Qed.

Lemma put_Map_id h a mp : maps h !! a = Some mp → put_Map h a mp = h.
Proof.
  intros Ha. destruct h as [ms cs]. unfold put_Map. simpl in *.
  by rewrite list_insert_id.
Qed.

Lemma put_Map_put_Map h a mp mp' :
  put_Map (put_Map h a mp) a mp' = put_Map h a mp'.
Proof. unfold put_Map. simpl. by rewrite list_insert_insert_eq. Qed.

(** ** The invariant check *)

Lemma Map_check_ro h a mp less :
  maps h !! a = Some mp → map_less mp = Some less →
  Map_check (Some a) ro h = (Ret (), h).
Proof.
  intros Ha Hl. unfold Map_check. simpl. by rewrite Ha, Hl.
Qed.

Lemma Map_check_rw h a mp less :
  maps h !! a = Some mp → map_less mp = Some less → map_iter mp = 0 →
  Map_check (Some a) rw h = (Ret (), h).
Proof.
  intros Ha Hl Hi. unfold Map_check. simpl. rewrite Ha, Hl.
  destruct (decide _) as [[_ ?]|?]; done.
Qed.

Lemma Map_check_locked h a mp less :
  maps h !! a = Some mp → map_less mp = Some less → map_iter mp ≠ 0 →
  Map_check (Some a) rw h = (Panic msg_Map_write, h).
Proof.
  intros Ha Hl Hi. unfold Map_check. simpl. rewrite Ha, Hl.
  destruct (decide _) as [?|Hn]; [done|]. by destruct Hn.
Qed.

Lemma Map_check_unconstructed h m o :
  (∀ mp, m ≫= (maps h !!.) = Some mp → map_less mp = None) →
  Map_check m o h = (Panic msg_Map_check, h).
Proof.
  intros Hm. unfold Map_check. destruct (m ≫= _) as [mp|]; [|done].
  by rewrite (Hm mp).
Qed.

Lemma bind_Ret {A B} (c : go K V A) (k : A → go K V B) h x h' :
  c h = (Ret x, h') → bind c k h = k x h'.
Proof. intros Hc. unfold bind. by rewrite Hc. Qed.

Lemma bind_Panic {A B} (c : go K V A) (k : A → go K V B) h msg h' :
  c h = (Panic msg, h') → bind c k h = (Panic msg, h').
Proof. intros Hc. unfold bind. by rewrite Hc. Qed.

(** ** What each method computes *)

Lemma Map_Get_eq h a mp less k :
  maps h !! a = Some mp → map_less mp = Some less →
  Map_Get (Some a) k h = (Ret (default zero (map_index (map_m mp) k)), h).
Proof.
  intros Ha Hl. unfold Map_Get.
  erewrite bind_Ret by by eapply Map_check_ro.
  by erewrite bind_Ret by by eapply load_Map_eq.
Qed.

Lemma Map_TryGet_eq h a mp less k :
  maps h !! a = Some mp → map_less mp = Some less →
  Map_TryGet (Some a) k h =
    (Ret (default zero (map_index (map_m mp) k),
          bool_decide (is_Some (map_index (map_m mp) k))), h).
Proof.
  intros Ha Hl. unfold Map_TryGet.
  erewrite bind_Ret by by eapply Map_check_ro.
  erewrite bind_Ret by by eapply load_Map_eq.
  by destruct (map_index _ _).
Qed.

Lemma Map_Len_eq h a mp less :
  maps h !! a = Some mp → map_less mp = Some less →
  Map_Len (Some a) h = (Ret (length (map_keys mp)), h).
Proof.
  intros Ha Hl. unfold Map_Len.
  erewrite bind_Ret by by eapply Map_check_ro.
  by erewrite bind_Ret by by eapply load_Map_eq.
Qed.

Lemma foldl_snoc {A B} (f : A → B) (l : list A) (acc : list B) :
  foldl (λ bs x, bs ++ [f x]) acc l = acc ++ (f <$> l).
Proof.
  revert acc. induction l as [|x l IH]; intros acc; simpl.
  - by rewrite app_nil_r.
  - by rewrite IH, <- app_assoc.
Qed.

Lemma Map_Range_eq h a mp less :
  maps h !! a = Some mp → map_less mp = Some less →
  Map_Range (Some a) h = (Ret (pairs mp), h).
Proof.
  intros Ha Hl. unfold Map_Range.
  erewrite bind_Ret by by eapply Map_check_ro.
  erewrite bind_Ret by by eapply load_Map_eq.
  unfold ret. by rewrite foldl_snoc.
Qed.

(** A write to a map with a nonzero iterator count panics and leaves the
    store as it is. *)
Lemma Map_Set_locked h a mp less k v :
  maps h !! a = Some mp → map_less mp = Some less → map_iter mp ≠ 0 →
  Map_Set (Some a) k v h = (Panic msg_Map_write, h).
Proof.
  intros. unfold Map_Set. by erewrite bind_Panic by by eapply Map_check_locked.
Qed.

Lemma Map_Delete_locked h a mp less k :
  maps h !! a = Some mp → map_less mp = Some less → map_iter mp ≠ 0 →
  Map_Delete (Some a) k h = (Panic msg_Map_write, h).
Proof.
  intros. unfold Map_Delete.
  by erewrite bind_Panic by by eapply Map_check_locked.
Qed.

Lemma Map_Reset_locked h a mp less :
  maps h !! a = Some mp → map_less mp = Some less → map_iter mp ≠ 0 →
  Map_Reset (Some a) h = (Panic msg_Map_write, h).
Proof.
  intros. unfold Map_Reset.
  by erewrite bind_Panic by by eapply Map_check_locked.
Qed.

(** [Set] with no iterator counted: a new key is appended and the keys are
    sorted; a key of the map keeps the keys as they are. *)
Lemma Map_Set_eq h a mp less g k v :
  maps h !! a = Some mp → map_less mp = Some less → map_m mp = Some g →
  map_iter mp = 0 →
  Map_Set (Some a) k v h =
    (Ret (), put_Map h a
       {| map_iter := map_iter mp;
          map_keys := if g !! k is Some _ then map_keys mp
                      else SortFunc (map_keys mp ++ [k]) less;
          map_less := map_less mp;
          map_m := Some (<[k := v]> g) |}).
Proof.
  intros Ha Hl Hg Hi. unfold Map_Set.
  erewrite bind_Ret by by eapply Map_check_rw.
  erewrite bind_Ret by by eapply load_Map_eq.
  unfold map_index, map_assign. rewrite Hg. cbn [mbind option_bind].
  destruct (g !! k) as [v'|] eqn:Hk.
  - erewrite bind_Ret by done.
    erewrite bind_Ret by by eapply load_Map_eq.
    rewrite Hg. cbn [fmap option_fmap option_map].
    by erewrite store_Map_eq.
  - rewrite Hl.
    erewrite bind_Ret by by eapply store_Map_eq.
    erewrite bind_Ret by by eapply load_Map_eq, lookup_put_Map.
    cbn [map_m map_iter map_keys map_less fmap option_fmap option_map].
    erewrite store_Map_eq by by eapply lookup_put_Map.
    by rewrite put_Map_put_Map.
Qed.

(** [Delete] with no iterator counted. *)
Lemma Map_Delete_eq h a mp less k :
  maps h !! a = Some mp → map_less mp = Some less → map_iter mp = 0 →
  Map_Delete (Some a) k h =
    (Ret (), put_Map h a
       {| map_iter := map_iter mp;
          map_keys := remove_first k (map_keys mp);
          map_less := map_less mp;
          map_m := map_delete (map_m mp) k |}).
Proof.
  intros Ha Hl Hi. unfold Map_Delete.
  erewrite bind_Ret by by eapply Map_check_rw.
  erewrite bind_Ret by by eapply load_Map_eq.
  destruct (decide (slices_Index (map_keys mp) k ≠ -1)) as [Hx|Hx].
  - rewrite slices_Delete_at_Index by done.
    erewrite bind_Ret by by eapply store_Map_eq.
    erewrite bind_Ret by by eapply load_Map_eq, lookup_put_Map.
    erewrite store_Map_eq by by eapply lookup_put_Map.
    by rewrite put_Map_put_Map.
  - apply dec_stable, slices_Index_notin in Hx.
    erewrite bind_Ret by done.
    erewrite bind_Ret by by eapply load_Map_eq.
    erewrite store_Map_eq by done.
    by rewrite remove_first_notin.
Qed.

(** [Reset] with no iterator counted. *)
Lemma Map_Reset_eq h a mp less :
  maps h !! a = Some mp → map_less mp = Some less → map_iter mp = 0 →
  Map_Reset (Some a) h =
    (Ret (), put_Map h a
       {| map_iter := map_iter mp; map_keys := [];
          map_less := map_less mp; map_m := maps_Clear (map_m mp) |}).
Proof.
  intros Ha Hl Hi. unfold Map_Reset.
  erewrite bind_Ret by by eapply Map_check_rw.
  erewrite bind_Ret by by eapply load_Map_eq.
  by erewrite store_Map_eq.
Qed.

(** ** Cursors *)

(** [Iter] counts one more iterator and allocates the cursor at the next
    free address. *)
Lemma Map_Iter_eq h a mp less :
  maps h !! a = Some mp → map_less mp = Some less →
  Map_Iter (Some a) h =
    (Ret (Some (length (cursors h))),
     {| maps := <[a := {| map_iter := atomic_AddInt32 (map_iter mp) 1;
                          map_keys := map_keys mp; map_less := map_less mp;
                          map_m := map_m mp |}]> (maps h);
        cursors := cursors h ++ [{| mi_m := Some a; mi_i := 0 |}] |}).
Proof.
  intros Ha Hl. unfold Map_Iter.
  erewrite bind_Ret by by eapply Map_check_ro.
  erewrite bind_Ret by by eapply load_Map_eq.
  by erewrite bind_Ret by by eapply store_Map_eq.
Qed.

Lemma MapIterator_check_eq h c it a :
  cursors h !! c = Some it → mi_m it = Some a →
  MapIterator_check (Some c) h = (Ret (), h).
Proof. intros Hc Hm. unfold MapIterator_check. simpl. by rewrite Hc, Hm. Qed.

Lemma load_MapIterator_eq h c it :
  cursors h !! c = Some it → load_MapIterator (Some c) h = (Ret it, h).
Proof. intros Hc. unfold load_MapIterator. simpl. by rewrite Hc. Qed.

(** [Close] on a cursor bound to the map at [a]: the count is decremented,
    and the call panics when the new count is negative. *)
Lemma MapIterator_Close_eq h c it a mp :
  cursors h !! c = Some it → mi_m it = Some a → maps h !! a = Some mp →
  MapIterator_Close (Some c) h =
    (if decide (atomic_AddInt32 (map_iter mp) (-1) < 0)
     then Panic msg_Close else Ret (),
     put_Map h a {| map_iter := atomic_AddInt32 (map_iter mp) (-1);
                    map_keys := map_keys mp; map_less := map_less mp;
                    map_m := map_m mp |}).
Proof.
  intros Hc Hm Ha. unfold MapIterator_Close.
  erewrite bind_Ret by by eapply MapIterator_check_eq.
  erewrite bind_Ret by by eapply load_MapIterator_eq.
  rewrite Hm. erewrite bind_Ret by by eapply load_Map_eq.
  erewrite bind_Ret by by eapply store_Map_eq.
  by case_decide.
Qed.

(** [Next] on a cursor bound to the map at [a]: the pair at the cursor's
    index, and the index moves on; nil past the last key. *)
Lemma MapIterator_Next_eq h c it a mp :
  cursors h !! c = Some it → mi_m it = Some a → maps h !! a = Some mp →
  MapIterator_Next (Some c) h =
    match pairs mp !! mi_i it with
    | Some kv =>
        (Ret (Some kv),
         {| maps := maps h;
            cursors := <[c := {| mi_m := mi_m it; mi_i := S (mi_i it) |}]>
                         (cursors h) |})
    | None => (Ret None, h)
    end.
Proof.
  intros Hc Hm Ha. unfold MapIterator_Next.
  erewrite bind_Ret by by eapply MapIterator_check_eq.
  erewrite bind_Ret by by eapply load_MapIterator_eq.
  rewrite Hm. erewrite bind_Ret by by eapply load_Map_eq.
  unfold pairs. rewrite list_lookup_fmap.
  destruct (map_keys mp !! mi_i it) as [k|] eqn:Hk; simpl; [|done].
  unfold bind at 1. unfold store_MapIterator.
  rewrite decide_True by by eapply lookup_lt_Some.
  unfold bind, load_MapIterator, load_Map, ret. simpl.
  rewrite list_lookup_insert_eq by by eapply lookup_lt_Some.
  simpl. by rewrite Ha.
Qed.

(** ** The invariant of constructed maps *)

Lemma wf_Map_iter less mp n :
  wf_Map less mp →
  wf_Map less {| map_iter := n; map_keys := map_keys mp; map_less := map_less mp;
            map_m := map_m mp |}.
Proof. intros (g & ?). by exists g. Qed.

Lemma wf_Map_Set mp less g k v :
  wf_Map less mp → map_m mp = Some g →
  wf_Map less {| map_iter := map_iter mp;
            map_keys := if g !! k is Some _ then map_keys mp
                        else SortFunc (map_keys mp ++ [k]) less;
            map_less := map_less mp;
            map_m := Some (<[k := v]> g) |}.
Proof.
  intros (g' & Hl & Hg & Hnd & Hdom & Hs) Hg'.
  assert (g' = g) as -> by congruence.
  exists (<[k := v]> g). simpl. split; [done|]. split; [done|].
  destruct (g !! k) as [v'|] eqn:Hk.
  - split; [done|]. split; [|done].
    intros k'. rewrite Hdom. destruct (decide (k = k')) as [->|Hne].
    + rewrite lookup_insert_eq, Hk. by split.
    + by rewrite lookup_insert_ne.
  - assert (k ∉ map_keys mp) as Hnk.
    { rewrite Hdom, Hk. by intros [? ?]. }
    split_and!.
    + rewrite SortFunc_perm. apply NoDup_app. split_and!; [done| |apply NoDup_singleton].
      intros x Hx ->%list_elem_of_singleton. done.
    + intros k'. rewrite SortFunc_perm, elem_of_app, list_elem_of_singleton, Hdom.
      destruct (decide (k = k')) as [->|Hne].
      * rewrite lookup_insert_eq. split; [by eexists|by right].
      * rewrite lookup_insert_ne by done. split; [|by left].
        by intros [?|?].
    + intros O. by apply SortFunc_sorted.
Qed.

Lemma wf_Map_Delete less mp k :
  wf_Map less mp →
  wf_Map less {| map_iter := map_iter mp;
            map_keys := remove_first k (map_keys mp);
            map_less := map_less mp;
            map_m := map_delete (map_m mp) k |}.
Proof.
  intros (g & Hl & Hg & Hnd & Hdom & Hs).
  exists (delete k g). simpl. rewrite Hg. split_and!; [done|done| | |].
  - by apply remove_first_NoDup.
  - intros k'. rewrite remove_first_elem_of, Hdom by done.
    destruct (decide (k = k')) as [->|Hne].
    + rewrite lookup_delete_eq. split; [by intros [_ ?]|by intros [? ?]].
    + rewrite lookup_delete_ne by done. split; [by intros [? _]|done].
  - intros O. by apply remove_first_sorted, Hs.
Qed.

Lemma wf_Map_Reset less mp :
  wf_Map less mp →
  wf_Map less {| map_iter := map_iter mp; map_keys := [];
            map_less := map_less mp; map_m := maps_Clear (map_m mp) |}.
Proof.
  intros (g & Hl & Hg & Hnd & Hdom & Hs).
  exists ∅. simpl. rewrite Hg. split_and!; [done|done|constructor| |constructor].
  intros k. rewrite lookup_empty. split; [by intros ?%elem_of_nil|by intros [? ?]].
Qed.

(** [NewMap] returns a constructed map at a fresh address and leaves the
    rest of the store as it is. *)
Lemma NewMap_eq less h :
  NewMap (Some less) h =
    (Ret (Some (length (maps h))),
     {| maps := maps h ++ [{| map_iter := 0; map_keys := [];
                              map_less := Some less; map_m := Some ∅ |}];
        cursors := cursors h |}).
Proof. done. Qed.

Lemma NewMap_constructed less h :
  constructed less (NewMap (Some less) h).2 (Some (length (maps h))).
Proof.
  rewrite NewMap_eq. eexists. split.
  { simpl. rewrite lookup_app_r by done. by rewrite Nat.sub_diag. }
  exists ∅. simpl. split_and!; [done|done|constructor| |constructor].
  intros k. rewrite lookup_empty. split; [by intros ?%elem_of_nil|by intros [? ?]].
Qed.

(** [Close], whatever the cursor, changes at most the iterator count of one
    map; [Next] changes no map. *)
Lemma MapIterator_Close_maps h mi b mp :
  maps h !! b = Some mp →
  ∃ n, maps (MapIterator_Close mi h).2 !! b
       = Some {| map_iter := n; map_keys := map_keys mp;
                 map_less := map_less mp; map_m := map_m mp |}.
Proof.
  intros Hb. assert (maps h !! b = Some {| map_iter := map_iter mp;
    map_keys := map_keys mp; map_less := map_less mp; map_m := map_m mp |})
    as Hid by by destruct mp.
  destruct mi as [c|]; [|by eexists].
  destruct (cursors h !! c) as [it|] eqn:Hc; cycle 1.
  { exists (map_iter mp). unfold MapIterator_Close, bind, MapIterator_check.
    simpl. by rewrite Hc. }
  destruct (mi_m it) as [a|] eqn:Hm; cycle 1.
  { exists (map_iter mp). unfold MapIterator_Close, bind, MapIterator_check.
    simpl. by rewrite Hc, Hm. }
  destruct (maps h !! a) as [mp'|] eqn:Ha; cycle 1.
  { exists (map_iter mp). unfold MapIterator_Close.
    erewrite bind_Ret by by eapply MapIterator_check_eq.
    erewrite bind_Ret by by eapply load_MapIterator_eq.
    rewrite Hm. erewrite bind_Panic; [done|].
    unfold load_Map. simpl. by rewrite Ha. }
  erewrite MapIterator_Close_eq by done. simpl.
  destruct (decide (a = b)) as [->|Hne].
  - eexists. rewrite list_lookup_insert_eq by by eapply lookup_lt_Some.
    by simplify_eq.
  - exists (map_iter mp). by rewrite list_lookup_insert_ne.
Qed.

Lemma MapIterator_Next_maps h mi : maps (MapIterator_Next mi h).2 = maps h.
Proof.
  destruct mi as [c|]; [|done].
  destruct (cursors h !! c) as [it|] eqn:Hc; cycle 1.
  { unfold MapIterator_Next, bind, MapIterator_check. simpl. by rewrite Hc. }
  destruct (mi_m it) as [a|] eqn:Hm; cycle 1.
  { unfold MapIterator_Next, bind, MapIterator_check. simpl. by rewrite Hc, Hm. }
  destruct (maps h !! a) as [mp'|] eqn:Ha; cycle 1.
  { unfold MapIterator_Next.
    erewrite bind_Ret by by eapply MapIterator_check_eq.
    erewrite bind_Ret by by eapply load_MapIterator_eq.
    rewrite Hm. erewrite bind_Panic; [done|].
    unfold load_Map. simpl. by rewrite Ha. }
  erewrite MapIterator_Next_eq by done. by destruct (pairs mp' !! mi_i it).
Qed.

Lemma discard_eq {A} (c : go K V A) h x h' :
  c h = (Ret x, h') → discard c h = (Ret (), h').
Proof. intros Hc. unfold discard. by erewrite bind_Ret. Qed.

(** Every call keeps a constructed map constructed. *)
Lemma constructed_do_call less h m c :
  constructed less h m → constructed less (do_call m c h).2 m.
Proof.
  intros (mp & Hm & Hwf). destruct m as [a|]; [simpl in Hm|done].
  pose proof Hwf as (g & Hl & Hg & _).
  destruct c as [k|k| |k v|k| | | |mi|mi]; simpl.
  - erewrite discard_eq by by eapply Map_Get_eq. by exists mp.
  - erewrite discard_eq by by eapply Map_TryGet_eq. by exists mp.
  - erewrite discard_eq by by eapply Map_Len_eq. by exists mp.
  - destruct (decide (map_iter mp = 0)).
    + erewrite Map_Set_eq by done. eexists. split.
      { by eapply lookup_put_Map. }
      by apply wf_Map_Set.
    + erewrite Map_Set_locked by done. by exists mp.
  - destruct (decide (map_iter mp = 0)).
    + erewrite Map_Delete_eq by done. eexists. split.
      { by eapply lookup_put_Map. }
      by apply wf_Map_Delete.
    + erewrite Map_Delete_locked by done. by exists mp.
  - destruct (decide (map_iter mp = 0)).
    + erewrite Map_Reset_eq by done. eexists. split.
      { by eapply lookup_put_Map. }
      by apply wf_Map_Reset.
    + erewrite Map_Reset_locked by done. by exists mp.
  - erewrite discard_eq by by eapply Map_Range_eq. by exists mp.
  - erewrite discard_eq by by eapply Map_Iter_eq. eexists. split.
    { simpl. apply list_lookup_insert_eq. by eapply lookup_lt_Some. }
    by apply wf_Map_iter.
  - destruct (MapIterator_Close_maps h mi a mp Hm) as [n Hn].
    eexists. split; [exact Hn|]. by apply wf_Map_iter.
  - unfold discard, bind.
    pose proof (MapIterator_Next_maps h mi) as Hn.
    destruct (MapIterator_Next mi h) as [[r|msg] h']; simpl in *;
      exists mp; by rewrite Hn.
Qed.

Lemma constructed_exec less h m cs :
  constructed less h m → constructed less (exec m cs h) m.
Proof.
  revert h. induction cs as [|c cs IH]; intros h Hc; [done|].
  simpl. by apply IH, constructed_do_call.
Qed.

(** * The claims *)

(** ** Order of [Range] *)

Lemma pairs_keys mp : Key <$> pairs mp = map_keys mp.
Proof.
  unfold pairs. rewrite <- list_fmap_compose. apply list_fmap_id.
Qed.

(** Under a comparator that orders every two distinct keys, a sorted slice
    without duplicates is strictly increasing. *)
Lemma sorted_strict less (l : list K) :
  Connected less → NoDup l →
  StronglySorted (not_after less) l → StronglySorted (before less) l.
Proof.
  intros Hc. induction l as [|x l IH]; intros Hnd Hs; [constructor|].
  apply NoDup_cons in Hnd as [Hx Hnd].
  apply StronglySorted_cons in Hs as [Hall Hs].
  apply StronglySorted_cons. split; [|by apply IH].
  rewrite Forall_forall in *. intros y Hy. specialize (Hall y Hy).
  unfold not_after, before in *.
  destruct (Hc x y) as [?|?]; [by intros ->|done|congruence].
Qed.

(** C1 (as amended).  For a map constructed with a strict weak ordering and
    every sequence of calls, among them every sequence of Set and Delete
    calls, Range returns the pairs of the map with keys in non-decreasing
    order: no key sorts before a key that precedes it.  When the comparator
    also orders every two distinct keys, the keys are strictly increasing. *)
Theorem C1_Range_sorted less h0 (cs : list (call K V)) :
  StrictWeakOrder less →
  let m := Some (length (maps h0)) in
  let h := exec m cs (NewMap (Some less) h0).2 in
  ∃ kvs,
    Map_Range m h = (Ret kvs, h) ∧
    StronglySorted (not_after less) (Key <$> kvs) ∧
    (Connected less → StronglySorted (before less) (Key <$> kvs)).
Proof.
  intros O m h.
  destruct (constructed_exec less _ m cs (NewMap_constructed less h0))
    as (mp & Hm & g & Hl & Hg & Hnd & Hdom & Hs).
  fold h in Hm. simpl in Hm.
  exists (pairs mp). split; [by eapply Map_Range_eq|].
  rewrite pairs_keys. split; [by apply Hs|].
  intros Hc. apply sorted_strict; [done..|]. by apply Hs.
Qed.

(** ** Writes and open cursors *)

Lemma int32_add_l x y : int32 (int32 x + y) = int32 (x + y).
Proof.
  unfold int32. f_equal.
  replace ((x + 2 ^ 31) `mod` 2 ^ 32 - 2 ^ 31 + y + 2 ^ 31)
    with ((x + 2 ^ 31) `mod` 2 ^ 32 + y) by lia.
  rewrite Zplus_mod_idemp_l. f_equal. lia.
Qed.

Lemma int32_0_iff z : int32 z = 0 ↔ z `mod` 2 ^ 32 = 0.
Proof.
  unfold int32.
  pose proof (Z.div_mod z (2 ^ 32) ltac:(lia)).
  pose proof (Z.mod_pos_bound z (2 ^ 32) ltac:(lia)).
  pose proof (Z.div_mod (z + 2 ^ 31) (2 ^ 32) ltac:(lia)).
  pose proof (Z.mod_pos_bound (z + 2 ^ 31) (2 ^ 32) ltac:(lia)).
  lia.
Qed.

Lemma filter_ne_notin (mi : ptr) (l : list ptr) :
  mi ∉ l → filter (λ c, c ≠ mi) l = l.
Proof.
  induction l as [|x l IH]; [done|]. intros [? ?]%not_elem_of_cons.
  rewrite filter_cons_True by done. by rewrite IH.
Qed.

Lemma length_filter_ne (mi : ptr) (l : list ptr) :
  NoDup l → mi ∈ l → S (length (filter (λ c, c ≠ mi) l)) = length l.
Proof.
  induction l as [|x l IH]; intros Hnd Hin; [by apply elem_of_nil in Hin|].
  apply NoDup_cons in Hnd as [Hx Hnd].
  destruct (decide (x = mi)) as [->|Hne].
  - rewrite filter_cons_False by naive_solver. simpl. f_equal.
    by rewrite filter_ne_notin.
  - rewrite filter_cons_True by done. simpl. f_equal. apply IH; [done|].
    apply elem_of_cons in Hin as [?|?]; [congruence|done].
Qed.

Lemma session_step_store m (s : session K V) c :
  store (session_step m s c) = (do_call m c (store s)).2.
Proof.
  destruct c; try done.
  simpl. unfold discard, bind.
  by destruct (Map_Iter m (store s)) as [[?|?] ?].
Qed.

(** [Next], whatever the cursor, keeps every cursor bound to its map. *)
Lemma MapIterator_Next_cursors h mi c it :
  cursors h !! c = Some it →
  ∃ it', cursors (MapIterator_Next mi h).2 !! c = Some it' ∧
         mi_m it' = mi_m it.
Proof.
  intros Hc. destruct mi as [c'|]; [|by exists it].
  destruct (cursors h !! c') as [it0|] eqn:Hc'; cycle 1.
  { exists it. unfold MapIterator_Next, bind, MapIterator_check. simpl.
    by rewrite Hc'. }
  destruct (mi_m it0) as [a|] eqn:Hm; cycle 1.
  { exists it. unfold MapIterator_Next, bind, MapIterator_check. simpl.
    by rewrite Hc', Hm. }
  destruct (maps h !! a) as [mp|] eqn:Ha; cycle 1.
  { exists it. unfold MapIterator_Next.
    erewrite bind_Ret by by eapply MapIterator_check_eq.
    erewrite bind_Ret by by eapply load_MapIterator_eq.
    rewrite Hm. erewrite bind_Panic; [done|].
    unfold load_Map. simpl. by rewrite Ha. }
  erewrite MapIterator_Next_eq by done.
  destruct (pairs mp !! mi_i it0); [|by exists it]. simpl.
  destruct (decide (c' = c)) as [->|Hne].
  - eexists. rewrite list_lookup_insert_eq by by eapply lookup_lt_Some.
    split; [done|]. simpl. congruence.
  - exists it. by rewrite list_lookup_insert_ne.
Qed.

Lemma discard_snd {A} (c : go K V A) h : (discard c h).2 = (c h).2.
Proof. unfold discard, bind. by destruct (c h) as [[?|?] ?]. Qed.

(** One call of a disciplined session keeps the session invariant. *)
Lemma session_inv_step less a (s : session K V) c :
  session_inv less a s →
  match c with CClose mi => mi ∈ unclosed s | _ => True end →
  session_inv less a (session_step (Some a) s c).
Proof.
  intros ((mp & Ha & Hwf & Hi) & Hnd & Hb) Hc.
  pose proof Hwf as (g & Hl & Hg & _).
  assert (session_inv less a s) as Hinv by (split; eauto).
  destruct c as [k|k| |k v|k| | | |mi|mi]; simpl.
  - by erewrite discard_eq by by eapply Map_Get_eq.
  - by erewrite discard_eq by by eapply Map_TryGet_eq.
  - by erewrite discard_eq by by eapply Map_Len_eq.
  - destruct (decide (map_iter mp = 0)).
    + erewrite Map_Set_eq by done. split_and!; [|done..].
      eexists. split; [by eapply lookup_put_Map|].
      split; [by apply wf_Map_Set|done].
    + by erewrite Map_Set_locked by done.
  - destruct (decide (map_iter mp = 0)).
    + erewrite Map_Delete_eq by done. split_and!; [|done..].
      eexists. split; [by eapply lookup_put_Map|].
      split; [by apply wf_Map_Delete|done].
    + by erewrite Map_Delete_locked by done.
  - destruct (decide (map_iter mp = 0)).
    + erewrite Map_Reset_eq by done. split_and!; [|done..].
      eexists. split; [by eapply lookup_put_Map|].
      split; [by apply wf_Map_Reset|done].
    + by erewrite Map_Reset_locked by done.
  - by erewrite discard_eq by by eapply Map_Range_eq.
  - erewrite Map_Iter_eq by done. simpl.
    assert (Some (length (cursors (store s))) ∉ unclosed s) as Hfresh.
    { intros (c & it & [= <-] & Hlook & _)%Hb.
      apply lookup_lt_Some in Hlook. lia. }
    split_and!.
    + eexists. split.
      { apply list_lookup_insert_eq. by eapply lookup_lt_Some. }
      split; [by apply wf_Map_iter|]. simpl.
      unfold atomic_AddInt32. rewrite Hi, int32_add_l. f_equal. lia.
    + by apply NoDup_cons.
    + intros mi [->|Hin]%elem_of_cons.
      * eexists _, _. split; [done|].
        split; [simpl; by rewrite lookup_app_r, Nat.sub_diag|done].
      * destruct (Hb mi Hin) as (c & it & -> & Hlook & Hm).
        exists c, it. split; [done|]. split; [|done].
        by apply lookup_app_l_Some.
  - destruct (Hb mi Hc) as (c & it & -> & Hlook & Hm).
    erewrite MapIterator_Close_eq by done. simpl.
    pose proof (length_filter_ne (Some c) (unclosed s) Hnd Hc) as Hlen.
    split_and!.
    + eexists. split.
      { apply list_lookup_insert_eq. by eapply lookup_lt_Some. }
      split; [by apply wf_Map_iter|]. simpl.
      unfold atomic_AddInt32. rewrite Hi, int32_add_l. f_equal. lia.
    + by apply NoDup_filter.
    + intros mi [_ Hin]%list_elem_of_filter. by apply Hb.
  - rewrite discard_snd. split_and!; simpl; [|done|].
    + exists mp. by rewrite MapIterator_Next_maps.
    + intros mi' Hin. destruct (Hb mi' Hin) as (c & it & -> & Hlook & Hm).
      destruct (MapIterator_Next_cursors _ mi _ _ Hlook) as (it' & ? & ?).
      exists c, it'. split; [done|]. split; [done|congruence].
Qed.

Lemma session_inv_run less a cs (s : session K V) :
  session_inv less a s → disciplined (Some a) cs s →
  session_inv less a (session_run (Some a) cs s).
Proof.
  revert s. induction cs as [|c cs IH]; intros s Hinv Hd; [done|].
  destruct Hd as [Hc Hd]. simpl. apply IH; [|done].
  by apply session_inv_step.
Qed.

Lemma session_inv_NewMap less h0 :
  session_inv less (length (maps h0))
    {| store := (NewMap (Some less) h0).2; unclosed := [] |}.
Proof.
  destruct (NewMap_constructed less h0) as (mp & Hm & Hwf).
  split_and!; [|constructor|by intros ? ?%elem_of_nil].
  exists mp. split; [done|]. split; [done|].
  rewrite NewMap_eq in Hm. simpl in Hm.
  rewrite lookup_app_r, Nat.sub_diag in Hm by done.
  injection Hm as <-. reflexivity.
Qed.

(** [n] more calls of [Iter] leave [n] more cursors unclosed. *)
Lemma session_run_Iter less a n (s : session K V) :
  session_inv less a s →
  session_inv less a (session_run (Some a) (replicate n CIter) s) ∧
  length (unclosed (session_run (Some a) (replicate n CIter) s))
    = (length (unclosed s) + n)%nat.
Proof.
  revert s. induction n as [|n IH]; intros s Hinv.
  { simpl. split; [done|lia]. }
  change (session_run (Some a) (replicate (S n) CIter) s)
    with (session_run (Some a) (replicate n CIter)
            (session_step (Some a) s CIter)).
  destruct (IH (session_step (Some a) s CIter)) as [Hinv' Hlen].
  { by apply session_inv_step. }
  split; [done|]. rewrite Hlen.
  destruct Hinv as ((mp & Ha & (g & Hl & _) & _) & _).
  unfold session_step. erewrite Map_Iter_eq by done. simpl. lia.
Qed.

Lemma session_run_Iter_NewMap less h0 n :
  let s0 : session K V :=
    {| store := (NewMap (Some less) h0).2; unclosed := [] |} in
  let s := session_run (Some (length (maps h0))) (replicate n CIter) s0 in
  session_inv less (length (maps h0)) s ∧ length (unclosed s) = n.
Proof.
  intros s0 s.
  destruct (session_run_Iter less (length (maps h0)) n s0) as [Hinv Hlen].
  { apply session_inv_NewMap. }
  split; [done|]. unfold s. by rewrite Hlen.
Qed.

(** C2 (as amended).  In a session on a constructed map in which Close is
    only called on cursors that Iter returned and that were not closed
    before: while the number of unclosed cursors is not a multiple of 2^32
    (so, between 1 and 2^32 - 1), each of Set, Delete and Reset panics and
    leaves the store as it is; when it is (so, once every cursor has been
    closed), the same calls return. *)
Theorem C2_writes_guarded less h0 (cs : list (call K V)) :
  let m := Some (length (maps h0)) in
  let s0 := {| store := (NewMap (Some less) h0).2; unclosed := [] |} in
  disciplined m cs s0 →
  let s := session_run m cs s0 in
  let n := Z.of_nat (length (unclosed s)) in
  (n `mod` 2 ^ 32 ≠ 0 → ∀ k v,
     Map_Set m k v (store s) = (Panic msg_Map_write, store s) ∧
     Map_Delete m k (store s) = (Panic msg_Map_write, store s) ∧
     Map_Reset m (store s) = (Panic msg_Map_write, store s)) ∧
  (n `mod` 2 ^ 32 = 0 → ∀ k v,
     returns (Map_Set m k v (store s)).1 = true ∧
     returns (Map_Delete m k (store s)).1 = true ∧
     returns (Map_Reset m (store s)).1 = true).
Proof.
  intros m s0 Hd s n.
  destruct (session_inv_run less _ cs s0 (session_inv_NewMap less h0) Hd)
    as ((mp & Ha & (g & Hl & Hg & _) & Hi) & _).
  fold s in Ha, Hi. fold n in Hi. split; intros Hn k v.
  - assert (map_iter mp ≠ 0) by by rewrite Hi, int32_0_iff.
    split_and!.
    + by eapply Map_Set_locked.
    + by eapply Map_Delete_locked.
    + by eapply Map_Reset_locked.
  - assert (map_iter mp = 0) by by rewrite Hi, int32_0_iff.
    unfold m. split_and!.
    + by erewrite Map_Set_eq.
    + by erewrite Map_Delete_eq.
    + by erewrite Map_Reset_eq.
Qed.

(** ** Unconstructed maps and [All] *)

(** The methods of [map.go] start with [check] and panic on a map that has no
    comparison function. *)
Lemma unconstructed_panics h a mp k v :
  maps h !! a = Some mp → map_less mp = None →
  Map_Get (Some a) k h = (Panic msg_Map_check, h) ∧
  Map_TryGet (Some a) k h = (Panic msg_Map_check, h) ∧
  Map_Len (Some a) h = (Panic msg_Map_check, h) ∧
  Map_Set (Some a) k v h = (Panic msg_Map_check, h) ∧
  Map_Delete (Some a) k h = (Panic msg_Map_check, h) ∧
  Map_Reset (Some a) h = (Panic msg_Map_check, h) ∧
  Map_Range (Some a) h = (Panic msg_Map_check, h) ∧
  Map_Iter (Some a) h = (Panic msg_Map_check, h).
Proof.
  intros Ha Hl.
  assert (∀ o, Map_check (Some a) o h = (Panic msg_Map_check, h)) as Hc.
  { intros o. apply Map_check_unconstructed. simpl. rewrite Ha. congruence. }
  split_and!;
    [unfold Map_Get|unfold Map_TryGet|unfold Map_Len|unfold Map_Set
    |unfold Map_Delete|unfold Map_Reset|unfold Map_Range|unfold Map_Iter];
    by erewrite bind_Panic.
Qed.

(** [All] on a map without keys returns without calling [yield]. *)
Lemma Map_All_no_keys h a mp yield :
  maps h !! a = Some mp → map_keys mp = [] →
  Map_All (Some a) yield h = (Ret (), h).
Proof.
  intros Ha Hk. unfold Map_All.
  erewrite bind_Ret by by eapply load_Map_eq. by rewrite Hk.
Qed.

(** A loop body that breaks at the first key runs once, in the store in
    which [All] was called. *)
Lemma Map_All_break h a mp k0 ks (w : go K V unit) :
  maps h !! a = Some mp → map_keys mp = k0 :: ks →
  Map_All (Some a) (λ _ _, w ;;; ret false) h = (w ;;; ret ()) h.
Proof.
  intros Ha Hk. unfold Map_All.
  erewrite bind_Ret by by eapply load_Map_eq. rewrite Hk. simpl.
  erewrite bind_Ret by by eapply load_Map_eq.
  unfold bind, ret. by destruct (w h) as [[[]|msg] h'].
Qed.

(** With a loop body that writes nothing, [All] writes nothing. *)
Lemma All_loop_pure h a mp ks yield :
  maps h !! a = Some mp →
  (∀ k v h', ∃ b, yield k v h' = (Ret b, h')) →
  All_loop (Some a) ks yield h = (Ret (), h).
Proof.
  intros Ha Hy. induction ks as [|k ks IH]; [done|]. simpl.
  erewrite bind_Ret by by eapply load_Map_eq.
  destruct (Hy k (default zero (map_index (map_m mp) k)) h) as [b Hb].
  erewrite bind_Ret by exact Hb. by destruct b.
Qed.

(** C4: the claim fails on the code for All.  On the zero value of Map,
    every method of map.go panics in its check, but All, which has no check,
    returns without calling yield. *)
Theorem C4_All_on_zero_Map_returns k v (yield : K → V → go K V bool) :
  let h : heap K V := {| maps := [zero_Map]; cursors := [] |} in
  let m := Some 0%nat in
  Map_All m yield h = (Ret (), h) ∧
  Map_Get m k h = (Panic msg_Map_check, h) ∧
  Map_TryGet m k h = (Panic msg_Map_check, h) ∧
  Map_Len m h = (Panic msg_Map_check, h) ∧
  Map_Set m k v h = (Panic msg_Map_check, h) ∧
  Map_Delete m k h = (Panic msg_Map_check, h) ∧
  Map_Reset m h = (Panic msg_Map_check, h) ∧
  Map_Range m h = (Panic msg_Map_check, h) ∧
  Map_Iter m h = (Panic msg_Map_check, h).
Proof.
  intros h m. split; [by eapply Map_All_no_keys|].
  by eapply unconstructed_panics.
Qed.

(** C10.  All takes part in neither guard.  On a constructed map with at
    least one key and no cursor open: with a loop body that writes nothing,
    All leaves the store, and so the iterator count, as it is; a loop body
    runs in the store in which All was called, so that Set, Delete and Reset
    called in the loop return as they would outside of it.  And on a
    zero-value map, wherever it is in the store, All returns without
    calling yield. *)
Theorem C10_All_unguarded less h a mp k0 ks :
  maps h !! a = Some mp → wf_Map less mp →
  map_keys mp = k0 :: ks → map_iter mp = 0 →
  (∀ yield, (∀ k v h', ∃ b, yield k v h' = (Ret b, h')) →
     Map_All (Some a) yield h = (Ret (), h)) ∧
  (∀ w : go K V unit,
     Map_All (Some a) (λ _ _, w ;;; ret false) h = (w ;;; ret ()) h) ∧
  (∀ k v,
     Map_All (Some a) (λ _ _, Map_Set (Some a) k v ;;; ret false) h
       = (Ret (), (Map_Set (Some a) k v h).2) ∧
     Map_All (Some a) (λ _ _, Map_Delete (Some a) k ;;; ret false) h
       = (Ret (), (Map_Delete (Some a) k h).2) ∧
     Map_All (Some a) (λ _ _, Map_Reset (Some a) ;;; ret false) h
       = (Ret (), (Map_Reset (Some a) h).2)) ∧
  (∀ ms1 ms2 cs yield,
     let h0 : heap K V :=
       {| maps := ms1 ++ zero_Map :: ms2; cursors := cs |} in
     Map_All (Some (length ms1)) yield h0 = (Ret (), h0)).
Proof.
  intros Ha Hwf Hk Hi. pose proof Hwf as (g & Hl & Hg & _). split_and!.
  - intros yield Hy. unfold Map_All.
    erewrite bind_Ret by by eapply load_Map_eq. by eapply All_loop_pure.
  - intros w. by eapply Map_All_break.
  - intros k v. split_and!.
    + erewrite Map_All_break by done.
      erewrite bind_Ret by (by eapply Map_Set_eq).
      by erewrite Map_Set_eq.
    + erewrite Map_All_break by done.
      erewrite bind_Ret by (by eapply Map_Delete_eq).
      by erewrite Map_Delete_eq.
    + erewrite Map_All_break by done.
      erewrite bind_Ret by (by eapply Map_Reset_eq).
      by erewrite Map_Reset_eq.
  - intros ms1 ms2 cs yield h0.
    eapply Map_All_no_keys; [simpl; by rewrite list_lookup_middle|done].
Qed.

(** ** Overwriting, deleting an absent key, and the keys of [Range] *)

(** C6 (as amended).  For a constructed map with no iterator counted and a
    key k of the map, Set(k, v1) followed by Set(k, v2) returns, leaves the
    key sequence, and so the keys of Range, as they were, and Get(k) then
    returns v2. *)
Theorem C6_overwrite less h a mp k v0 v1 v2 :
  maps h !! a = Some mp → wf_Map less mp → map_iter mp = 0 →
  map_index (map_m mp) k = Some v0 →
  ∃ h' mp',
    (Map_Set (Some a) k v1 ;;; Map_Set (Some a) k v2) h = (Ret (), h') ∧
    maps h' !! a = Some mp' ∧
    map_keys mp' = map_keys mp ∧
    Key <$> pairs mp' = Key <$> pairs mp ∧
    Map_Range (Some a) h' = (Ret (pairs mp'), h') ∧
    Map_Get (Some a) k h' = (Ret v2, h').
Proof.
  intros Ha Hwf Hi Hk. pose proof Hwf as (g & Hl & Hg & _).
  rewrite Hg in Hk. simpl in Hk.
  eexists _, _. split.
  { erewrite bind_Ret by by eapply Map_Set_eq.
    erewrite Map_Set_eq;
      [done|by eapply lookup_put_Map|done|simpl; done|done]. }
  rewrite put_Map_put_Map. split; [by eapply lookup_put_Map|].
  simpl. rewrite Hk, lookup_insert_eq. split; [done|].
  split; [by rewrite !pairs_keys|].
  split.
  - erewrite Map_Range_eq; [done|by eapply lookup_put_Map|done].
  - erewrite Map_Get_eq; [|by eapply lookup_put_Map|done].
    simpl. by rewrite lookup_insert_eq.
Qed.

(** C7.  For a constructed map with no iterator counted and a key k that is
    not in it, Delete(k) returns and changes nothing: the store, and with it
    Len() and Range(), are as before. *)
Theorem C7_Delete_absent less h a mp k :
  maps h !! a = Some mp → wf_Map less mp → map_iter mp = 0 →
  map_index (map_m mp) k = None →
  Map_Delete (Some a) k h = (Ret (), h) ∧
  Map_Len (Some a) (Map_Delete (Some a) k h).2 = Map_Len (Some a) h ∧
  Map_Range (Some a) (Map_Delete (Some a) k h).2 = Map_Range (Some a) h.
Proof.
  intros Ha (g & Hl & Hg & Hnd & Hdom & _) Hi Hk.
  rewrite Hg in Hk. simpl in Hk.
  assert (Map_Delete (Some a) k h = (Ret (), h)) as Hd.
  { erewrite Map_Delete_eq by done. f_equal.
    rewrite remove_first_notin.
    - rewrite Hg. simpl. rewrite delete_id by done. rewrite <- Hg.
      apply put_Map_id. by destruct mp.
    - rewrite Hdom, Hk. by intros [? ?]. }
  by rewrite Hd.
Qed.

(** C8.  For a map made by NewMap and every sequence of calls on it and its
    cursors, the keys of the pairs that Range returns are exactly the keys
    for which TryGet reports true. *)
Theorem C8_Range_keys_TryGet less h0 (cs : list (call K V)) :
  let m := Some (length (maps h0)) in
  let h := exec m cs (NewMap (Some less) h0).2 in
  ∃ kvs,
    Map_Range m h = (Ret kvs, h) ∧
    ∀ k, k ∈ Key <$> kvs ↔ ∃ v, Map_TryGet m k h = (Ret (v, true), h).
Proof.
  intros m h.
  destruct (constructed_exec less _ m cs (NewMap_constructed less h0))
    as (mp & Hm & g & Hl & Hg & Hnd & Hdom & Hs).
  fold h in Hm. simpl in Hm.
  exists (pairs mp). split; [by eapply Map_Range_eq|].
  intros k. rewrite pairs_keys, Hdom. unfold m.
  erewrite Map_TryGet_eq by done. rewrite Hg. simpl. split.
  - intros Hk. eexists. by rewrite bool_decide_eq_true_2.
  - intros [v [= _ Hb]]. by apply bool_decide_eq_true in Hb.
Qed.

(** ** Two cursors on one map *)

(** Two distinct cursors bound to the map at [a], at the indices [i0] and
    [i1]. *)
Definition two_cursors h a mp (c0 c1 i0 i1 : nat) : Prop :=
  maps h !! a = Some mp ∧ c0 ≠ c1 ∧
  cursors h !! c0 = Some {| mi_m := Some a; mi_i := i0 |} ∧
  cursors h !! c1 = Some {| mi_m := Some a; mi_i := i1 |}.

Lemma two_cursors_sym h a mp c0 c1 i0 i1 :
  two_cursors h a mp c0 c1 i0 i1 → two_cursors h a mp c1 c0 i1 i0.
Proof. intros (? & ? & ? & ?). by split_and!. Qed.

(** [Next] on the first cursor moves the first cursor only. *)
Lemma two_cursors_Next h a mp c0 c1 i0 i1 :
  two_cursors h a mp c0 c1 i0 i1 →
  ∃ h',
    MapIterator_Next (Some c0) h = (Ret (pairs mp !! i0), h') ∧
    two_cursors h' a mp c0 c1 (if pairs mp !! i0 is Some _ then S i0 else i0)
      i1.
Proof.
  intros (Ha & Hne & H0' & H1').
  erewrite MapIterator_Next_eq by done. simpl.
  destruct (pairs mp !! i0) as [kv|]; [|by eexists].
  eexists. split; [done|]. split_and!; simpl; [done|done| |].
  - apply list_lookup_insert_eq. by eapply lookup_lt_Some.
  - by rewrite list_lookup_insert_ne.
Qed.

Lemma option_list_lookup_drop {A} (l : list A) i n :
  option_list (l !! i)
    ++ take n (drop (if l !! i is Some _ then S i else i) l)
  = take (S n) (drop i l).
Proof.
  destruct (l !! i) as [x|] eqn:Hi; simpl.
  - by erewrite (drop_S l x i).
  - apply lookup_ge_None in Hi. by rewrite !drop_ge, !take_nil by lia.
Qed.

Lemma interleave_eq h a mp c0 c1 i0 i1 sched :
  two_cursors h a mp c0 c1 i0 i1 →
  (interleave sched (Some c0) (Some c1) h).1 =
    Ret (take (length (filter (λ b, b = false) sched)) (drop i0 (pairs mp)),
         take (length (filter (λ b, b = true) sched)) (drop i1 (pairs mp))).
Proof.
  revert h i0 i1. induction sched as [|b sched IH]; intros h i0 i1 Hc.
  { done. }
  destruct b; cbn [interleave].
  - destruct (two_cursors_Next h a mp c1 c0 i1 i0) as (h' & Hn & Hc').
    { by apply two_cursors_sym. }
    apply two_cursors_sym in Hc'. specialize (IH _ _ _ Hc').
    erewrite bind_Ret by exact Hn. unfold bind at 1.
    destruct (interleave sched (Some c0) (Some c1) h') as [[[o0 o1]|?] h''];
      [|done].
    simpl in *. injection IH as -> ->.
    rewrite ?filter_cons_True, ?filter_cons_False by done. simpl length.
    by rewrite option_list_lookup_drop.
  - destruct (two_cursors_Next h a mp c0 c1 i0 i1) as (h' & Hn & Hc');
      [done|].
    specialize (IH _ _ _ Hc').
    erewrite bind_Ret by exact Hn. unfold bind at 1.
    destruct (interleave sched (Some c0) (Some c1) h') as [[[o0 o1]|?] h''];
      [|done].
    simpl in *. injection IH as -> ->.
    rewrite ?filter_cons_True, ?filter_cons_False by done. simpl length.
    by rewrite option_list_lookup_drop.
Qed.

(** The loop [for kv := mi.Next(); kv != nil; kv = mi.Next()] with enough
    fuel: the pairs from the cursor's index on, and the cursor at the end. *)
Lemma drain_eq h a mp c0 c1 i0 i1 n :
  two_cursors h a mp c0 c1 i0 i1 →
  ∃ h',
    drain n (Some c0) h = (Ret (take n (drop i0 (pairs mp))), h') ∧
    two_cursors h' a mp c0 c1 (i0 + length (take n (drop i0 (pairs mp)))) i1.
Proof.
  revert h i0. induction n as [|n IH]; intros h i0 Hc.
  { exists h. split; [done|]. simpl. by rewrite Nat.add_0_r. }
  destruct (two_cursors_Next h a mp c0 c1 i0 i1 Hc) as (h' & Hn & Hc').
  simpl drain. erewrite bind_Ret by exact Hn.
  destruct (pairs mp !! i0) as [kv|] eqn:Hi.
  - destruct (IH _ _ Hc') as (h'' & Hd & Hc'').
    erewrite bind_Ret by exact Hd. exists h''.
    rewrite (drop_S _ kv i0) by done. simpl. split; [done|].
    by rewrite <- Nat.add_succ_comm.
  - exists h'. apply lookup_ge_None in Hi.
    rewrite drop_ge, take_nil by lia. simpl. split; [done|].
    by rewrite Nat.add_0_r.
Qed.

(** C9.  On a constructed map, two cursors opened one after the other, with
    no write in between: however the calls of Next on the two are
    interleaved, each cursor returns the pairs of Range in order, as many as
    it was advanced; so advancing one does not move the other, and each,
    traversed to the end, returns exactly the pairs of Range. *)
Theorem C9_two_cursors less h m :
  constructed less h m →
  ∃ kvs mi0 mi1 h2,
    Map_Range m h = (Ret kvs, h) ∧
    (let* mi0 := Map_Iter m in let* mi1 := Map_Iter m in ret (mi0, mi1)) h
      = (Ret (mi0, mi1), h2) ∧
    mi0 ≠ mi1 ∧
    (∀ sched,
       (interleave sched mi0 mi1 h2).1 =
         Ret (take (length (filter (λ b, b = false) sched)) kvs,
              take (length (filter (λ b, b = true) sched)) kvs)) ∧
    (∀ n0 n1, (length kvs ≤ n0)%nat → (length kvs ≤ n1)%nat →
       ((let* kvs0 := drain n0 mi0 in
         let* kvs1 := drain n1 mi1 in ret (kvs0, kvs1)) h2).1
         = Ret (kvs, kvs) ∧
       ((let* kvs1 := drain n1 mi1 in
         let* kvs0 := drain n0 mi0 in ret (kvs0, kvs1)) h2).1
         = Ret (kvs, kvs)).
Proof.
  intros (mp & Hm & Hwf). destruct m as [a|]; [simpl in Hm|done].
  pose proof Hwf as (g & Hl & Hg & _).
  set (mp1 := {| map_iter := atomic_AddInt32 (map_iter mp) 1;
                 map_keys := map_keys mp; map_less := map_less mp;
                 map_m := map_m mp |}).
  set (mp2 := {| map_iter := atomic_AddInt32 (map_iter mp1) 1;
                 map_keys := map_keys mp1; map_less := map_less mp1;
                 map_m := map_m mp1 |}).
  assert (pairs mp2 = pairs mp) as Hp by done.
  set (h1 := {| maps := <[a := mp1]> (maps h);
                cursors := cursors h ++ [{| mi_m := Some a; mi_i := 0 |}] |}).
  set (h2 := {| maps := <[a := mp2]> (maps h1);
                cursors := cursors h1 ++ [{| mi_m := Some a; mi_i := 0 |}] |}).
  exists (pairs mp), (Some (length (cursors h))),
    (Some (length (cursors h1))), h2.
  split; [by eapply Map_Range_eq|].
  split.
  { erewrite bind_Ret by by eapply Map_Iter_eq.
    erewrite bind_Ret; [reflexivity|].
    eapply (Map_Iter_eq _ _ mp1); [|exact Hl]. simpl.
    apply list_lookup_insert_eq. by eapply lookup_lt_Some. }
  assert (two_cursors h2 a mp2 (length (cursors h)) (length (cursors h1))
            0 0) as Hc.
  { split_and!; simpl.
    - rewrite list_insert_insert_eq.
      apply list_lookup_insert_eq. by eapply lookup_lt_Some.
    - rewrite length_app. simpl. lia.
    - rewrite lookup_app_l by (rewrite length_app; simpl; lia).
      by rewrite lookup_app_r, Nat.sub_diag.
    - by rewrite lookup_app_r, Nat.sub_diag. }
  split_and!.
  - intros [= Heq]. rewrite length_app in Heq. simpl in Heq. lia.
  - intros sched. erewrite interleave_eq by exact Hc. by rewrite Hp.
  - intros n0 n1 Hn0 Hn1. rewrite <- Hp in Hn0, Hn1. split.
    + destruct (drain_eq _ _ _ _ _ _ _ n0 Hc) as (h3 & Hd0 & Hc3).
      apply two_cursors_sym in Hc3.
      destruct (drain_eq _ _ _ _ _ _ _ n1 Hc3) as (h4 & Hd1 & _).
      erewrite bind_Ret by exact Hd0. erewrite bind_Ret by exact Hd1.
      simpl. by rewrite !take_ge, Hp by done.
    + apply two_cursors_sym in Hc.
      destruct (drain_eq _ _ _ _ _ _ _ n1 Hc) as (h3 & Hd1 & Hc3).
      apply two_cursors_sym in Hc3.
      destruct (drain_eq _ _ _ _ _ _ _ n0 Hc3) as (h4 & Hd0 & _).
      erewrite bind_Ret by exact Hd1. erewrite bind_Ret by exact Hd0.
      simpl. by rewrite !take_ge, Hp by done.
Qed.

End facts.

(** * Further properties of the package *)

Section coverage.
Context {K V : Type} `{Countable K} `{Zero V} `{Sorter K}.
Implicit Types (h : heap K V) (mp : Map K V) (m mi : ptr) (a : nat) (k : K)
  (v : V) (less : K → K → bool) (g : gmap K V).

Lemma constructed_inv less h m :
  constructed less h m →
  ∃ a mp g,
    m = Some a ∧ maps h !! a = Some mp ∧ wf_Map less mp ∧
    map_less mp = Some less ∧ map_m mp = Some g ∧
    NoDup (map_keys mp) ∧ (∀ k, k ∈ map_keys mp ↔ is_Some (g !! k)).
Proof.
  intros (mp & Hm & Hwf). destruct m as [a|]; [simpl in Hm|done].
  pose proof Hwf as (g & Hl & Hg & Hnd & Hdom & _).
  by exists a, mp, g.
Qed.

Lemma iter_count_eq h a mp n :
  maps h !! a = Some mp → iter_count h (Some a) = Some n → map_iter mp = n.
Proof.
  intros Ha. unfold iter_count. simpl. rewrite Ha. simpl. congruence.
Qed.

Lemma iter_count_put_Map h a mp mp' :
  maps h !! a = Some mp →
  iter_count (put_Map h a mp') (Some a) = Some (map_iter mp').
Proof.
  intros Ha. unfold iter_count.
  change (Some a ≫= (maps (put_Map h a mp') !!.))
    with (maps (put_Map h a mp') !! a).
  by erewrite lookup_put_Map.
Qed.

(** X1.  NewMap with a nil comparison function panics and leaves the store
    as it is.  With a comparison function it returns a pointer that was not
    a map of the store before, to a constructed map with no iterator
    counted that is empty: Len is 0, Range is empty and TryGet finds no key;
    the maps and cursors that were in the store are as before. *)
Theorem X1_NewMap_fresh_empty less h :
  NewMap (K := K) (V := V) None h = (Panic msg_NewMap, h) ∧
  ∃ m h',
    NewMap (Some less) h = (Ret m, h') ∧
    m ≫= (maps h !!.) = None ∧
    constructed less h' m ∧ iter_count h' m = Some 0 ∧
    Map_Len m h' = (Ret 0%nat, h') ∧
    Map_Range m h' = (Ret [], h') ∧
    (∀ k, Map_TryGet m k h' = (Ret (zero, false), h')) ∧
    (∀ b mp, maps h !! b = Some mp → maps h' !! b = Some mp) ∧
    cursors h' = cursors h.
Proof.
  split; [done|]. eexists _, _. split; [apply NewMap_eq|].
  set (mp0 := {| map_iter := 0; map_keys := []; map_less := Some less;
                 map_m := Some (∅ : gmap K V) |}).
  assert (maps {| maps := maps h ++ [mp0]; cursors := cursors h |}
            !! length (maps h) = Some mp0) as Ha.
  { simpl. by rewrite lookup_app_r, Nat.sub_diag. }
  split_and!.
  - simpl. by apply lookup_ge_None.
  - apply NewMap_constructed.
  - unfold iter_count. simpl. by rewrite lookup_app_r, Nat.sub_diag.
  - by erewrite Map_Len_eq by done.
  - by erewrite Map_Range_eq by done.
  - intros k. erewrite Map_TryGet_eq by done. simpl.
    by rewrite lookup_empty.
  - intros b mp Hb. simpl. by apply lookup_app_l_Some.
  - done.
Qed.

(** ** Insert, look up, delete, reset *)


(** X3.  On a constructed map with no iterator counted, Set of a key that
    TryGet does not find makes Len one larger; Set of a key that TryGet
    finds leaves Len as it is. *)
Theorem X3_Set_Len less h m k v :
  constructed less h m → iter_count h m = Some 0 →
  ∃ n v0 found,
    Map_Len m h = (Ret n, h) ∧
    Map_TryGet m k h = (Ret (v0, found), h) ∧
    (Map_Len m (Map_Set m k v h).2).1
      = Ret (if found then n else S n).
Proof.
  intros (a & mp & g & -> & Ha & Hwf & Hl & Hg & _)%constructed_inv Hi.
  apply (iter_count_eq _ _ _ _ Ha) in Hi.
  eexists _, _, _. split; [by eapply Map_Len_eq|].
  split; [by eapply Map_TryGet_eq|].
  erewrite Map_Set_eq by done.
  erewrite Map_Len_eq; [|by eapply lookup_put_Map|done].
  simpl. rewrite Hg. simpl. destruct (g !! k) as [v0|]; simpl.
  - done.
  - by rewrite SortFunc_perm, length_app, Nat.add_comm.
Qed.

Lemma remove_first_filter k (s : list K) :
  NoDup s → remove_first k s = filter (λ x, x ≠ k) s.
Proof.
  induction s as [|x s IH]; intros Hnd; [done|].
  apply NoDup_cons in Hnd as [Hx Hnd]. simpl.
  destruct (decide (k = x)) as [->|Hne].
  - rewrite filter_cons_False by naive_solver.
    rewrite <- IH by done. by rewrite remove_first_notin.
  - rewrite filter_cons_True by naive_solver. by rewrite IH.
Qed.

(** X4.  On a constructed map with no iterator counted, Delete(k) returns
    and keeps the map constructed; afterwards TryGet(k) finds nothing,
    every other key looks up as before, and Range is the Range of before
    without the pair of k, the other pairs in their order; Len is one
    smaller when k was found and unchanged when it was not. *)
Theorem X4_Delete_removes less h m k :
  constructed less h m → iter_count h m = Some 0 →
  ∃ h' kvs v0 found,
    Map_Delete m k h = (Ret (), h') ∧
    constructed less h' m ∧
    Map_Range m h = (Ret kvs, h) ∧
    Map_TryGet m k h = (Ret (v0, found), h) ∧
    Map_TryGet m k h' = (Ret (zero, false), h') ∧
    (∀ k', k' ≠ k → (Map_TryGet m k' h').1 = (Map_TryGet m k' h).1) ∧
    Map_Range m h' = (Ret (filter (λ kv, Key kv ≠ k) kvs), h') ∧
    (Map_Len m h').1
      = Ret (if found then pred (length kvs) else length kvs).
Proof.
  intros (a & mp & g & -> & Ha & Hwf & Hl & Hg & Hnd & Hdom)%constructed_inv
    Hi.
  apply (iter_count_eq _ _ _ _ Ha) in Hi.
  set (mp' := {| map_iter := map_iter mp;
                 map_keys := remove_first k (map_keys mp);
                 map_less := map_less mp;
                 map_m := map_delete (map_m mp) k |}).
  assert (maps (put_Map h a mp') !! a = Some mp') as Ha'
    by by eapply lookup_put_Map.
  exists (put_Map h a mp'), (pairs mp). eexists _, _.
  split; [by eapply Map_Delete_eq|].
  split; [exists mp'; split; [done|by apply wf_Map_Delete]|].
  split; [by eapply Map_Range_eq|].
  split; [by eapply Map_TryGet_eq|].
  split_and!.
  - erewrite Map_TryGet_eq by done. simpl. rewrite Hg. simpl.
    by rewrite lookup_delete_eq.
  - intros k' Hne. erewrite !Map_TryGet_eq by done. simpl.
    rewrite Hg. simpl. by rewrite lookup_delete_ne.
  - erewrite Map_Range_eq by done. do 2 f_equal.
    unfold pairs. simpl. rewrite remove_first_filter by done.
    rewrite Hg. simpl. clear Hnd Hdom Ha'.
    induction (map_keys mp) as [|x l IH]; [done|].
    rewrite fmap_cons. destruct (decide (x = k)) as [->|Hne].
    + rewrite !filter_cons_False by naive_solver. apply IH.
    + rewrite !filter_cons_True by naive_solver.
      rewrite fmap_cons, IH. simpl. by rewrite lookup_delete_ne.
  - erewrite Map_Len_eq by done. simpl. unfold pairs.
    rewrite length_fmap, Hg. simpl. f_equal.
    destruct (g !! k) as [v0|] eqn:Hk.
    + rewrite bool_decide_eq_true_2 by done.
      assert (k ∈ map_keys mp) as Hin by by apply Hdom.
      apply (remove_first_length k) in Hin. lia.
    + rewrite bool_decide_eq_false_2 by by intros [? ?].
      rewrite remove_first_notin; [done|]. rewrite Hdom, Hk. by intros [? ?].
Qed.

(** X5.  On a constructed map with no iterator counted, Reset returns;
    afterwards the map is still constructed with its comparison function and
    uncounted, Len is 0, Range is empty and TryGet finds no key. *)
Theorem X5_Reset_empties less h m :
  constructed less h m → iter_count h m = Some 0 →
  ∃ h',
    Map_Reset m h = (Ret (), h') ∧
    constructed less h' m ∧ iter_count h' m = Some 0 ∧
    Map_Len m h' = (Ret 0%nat, h') ∧
    Map_Range m h' = (Ret [], h') ∧
    (∀ k, Map_TryGet m k h' = (Ret (zero, false), h')).
Proof.
  intros (a & mp & g & -> & Ha & Hwf & Hl & Hg & _)%constructed_inv Hi.
  apply (iter_count_eq _ _ _ _ Ha) in Hi.
  set (mp' := {| map_iter := map_iter mp; map_keys := [];
                 map_less := map_less mp;
                 map_m := maps_Clear (map_m mp) |}).
  assert (maps (put_Map h a mp') !! a = Some mp') as Ha'
    by by eapply lookup_put_Map.
  exists (put_Map h a mp'). split; [by eapply Map_Reset_eq|].
  split_and!.
  - exists mp'. split; [done|]. by apply wf_Map_Reset.
  - erewrite iter_count_put_Map by done. simpl. by rewrite Hi.
  - by erewrite Map_Len_eq by done.
  - by erewrite Map_Range_eq by done.
  - intros k. erewrite Map_TryGet_eq by done. simpl. rewrite Hg. simpl.
    by rewrite lookup_empty.
Qed.

(** ** Reads *)



(** ** Nil pointers and zero values *)

(** X8.  On a nil map pointer every method of map.go panics in its check and
    leaves the store as it is; All, which has no check, panics with the
    run-time error of dereferencing nil. *)
Theorem X8_nil_Map_pointer h k v (yield : K → V → go K V bool) :
  Map_Get None k h = (Panic msg_Map_check, h) ∧
  Map_TryGet None k h = (Panic msg_Map_check, h) ∧
  Map_Len None h = (Panic msg_Map_check, h) ∧
  Map_Set None k v h = (Panic msg_Map_check, h) ∧
  Map_Delete None k h = (Panic msg_Map_check, h) ∧
  Map_Reset None h = (Panic msg_Map_check, h) ∧
  Map_Range None h = (Panic msg_Map_check, h) ∧
  Map_Iter None h = (Panic msg_Map_check, h) ∧
  Map_All None yield h = (Panic msg_nil_deref, h).
Proof. by split_and!. Qed.

(** X9.  Next and Close panic in the cursor's check, and leave the store as
    it is, on a nil cursor pointer and on a cursor that is the zero value of
    MapIterator, wherever it is in the store. *)
Theorem X9_unbound_cursor_panics h ms cs1 cs2 :
  MapIterator_Next None h = (Panic msg_MapIterator_check, h) ∧
  MapIterator_Close None h = (Panic msg_MapIterator_check, h) ∧
  let h0 : heap K V :=
    {| maps := ms; cursors := cs1 ++ zero_MapIterator :: cs2 |} in
  MapIterator_Next (Some (length cs1)) h0 = (Panic msg_MapIterator_check, h0) ∧
  MapIterator_Close (Some (length cs1)) h0
    = (Panic msg_MapIterator_check, h0).
Proof.
  split; [done|]. split; [done|]. intros h0.
  assert (MapIterator_check (Some (length cs1)) h0
            = (Panic msg_MapIterator_check, h0)) as Hc.
  { unfold MapIterator_check. simpl. by rewrite list_lookup_middle. }
  split.
  - unfold MapIterator_Next. by erewrite bind_Panic.
  - unfold MapIterator_Close. by erewrite bind_Panic.
Qed.

(** ** Cursors *)

(** X10.  When Next returns nil it has changed nothing, so that the next
    call of Next on the cursor returns nil again. *)
Theorem X10_Next_nil_is_stable h mi h' :
  MapIterator_Next mi h = (Ret None, h') →
  h' = h ∧ MapIterator_Next mi h' = (Ret None, h').
Proof.
  intros Hn. assert (h' = h) as ->; [|done].
  destruct mi as [c|]; [|done].
  destruct (cursors h !! c) as [it|] eqn:Hc; cycle 1.
  { unfold MapIterator_Next, bind, MapIterator_check in Hn. simpl in Hn.
    by rewrite Hc in Hn. }
  destruct (mi_m it) as [a|] eqn:Hm; cycle 1.
  { unfold MapIterator_Next, bind, MapIterator_check in Hn. simpl in Hn.
    by rewrite Hc, Hm in Hn. }
  destruct (maps h !! a) as [mp|] eqn:Ha; cycle 1.
  { unfold MapIterator_Next in Hn.
    erewrite bind_Ret in Hn by by eapply MapIterator_check_eq.
    erewrite bind_Ret in Hn by by eapply load_MapIterator_eq.
    rewrite Hm in Hn. erewrite bind_Panic in Hn; [done|].
    unfold load_Map. simpl. by rewrite Ha. }
  erewrite MapIterator_Next_eq in Hn by done.
  destruct (pairs mp !! mi_i it); congruence.
Qed.

(** X11.  On a constructed map whose iterator count n is at least 0 and
    below 2^31 - 1, Iter returns a cursor that was not in the store, at
    index 0, and counts n + 1; Close on that cursor returns, and the maps of
    the store are then exactly as before Iter. *)
Theorem X11_Iter_then_Close less h m n :
  constructed less h m → iter_count h m = Some n → 0 ≤ n < 2 ^ 31 - 1 →
  ∃ mi h1 h2,
    Map_Iter m h = (Ret mi, h1) ∧
    mi ≫= (cursors h !!.) = None ∧
    mi ≫= (cursors h1 !!.) = Some {| mi_m := m; mi_i := 0 |} ∧
    iter_count h1 m = Some (n + 1) ∧
    MapIterator_Close mi h1 = (Ret (), h2) ∧
    maps h2 = maps h.
Proof.
  intros (a & mp & g & -> & Ha & Hwf & Hl & Hg & _)%constructed_inv Hi Hn.
  apply (iter_count_eq _ _ _ _ Ha) in Hi.
  assert (atomic_AddInt32 n 1 = n + 1) as Hadd.
  { unfold atomic_AddInt32, int32. rewrite Z.mod_small; lia. }
  assert (atomic_AddInt32 (n + 1) (-1) = n) as Hsub.
  { unfold atomic_AddInt32, int32. rewrite Z.mod_small; lia. }
  set (mp1 := {| map_iter := atomic_AddInt32 (map_iter mp) 1;
                 map_keys := map_keys mp; map_less := map_less mp;
                 map_m := map_m mp |}).
  set (h1 := {| maps := <[a := mp1]> (maps h);
                cursors := cursors h ++ [{| mi_m := Some a; mi_i := 0 |}] |}).
  assert (maps h1 !! a = Some mp1) as Ha1.
  { simpl. apply list_lookup_insert_eq. by eapply lookup_lt_Some. }
  assert (cursors h1 !! length (cursors h)
            = Some {| mi_m := Some a; mi_i := 0 |}) as Hc1.
  { simpl. by rewrite lookup_app_r, Nat.sub_diag. }
  exists (Some (length (cursors h))), h1. eexists.
  split; [by eapply Map_Iter_eq|].
  split; [simpl; by apply lookup_ge_None|].
  split; [done|].
  split.
  { unfold iter_count. simpl in *. rewrite Ha1. simpl. by rewrite Hi, Hadd. }
  erewrite MapIterator_Close_eq by done.
  simpl map_iter. rewrite Hi, Hadd, Hsub.
  rewrite decide_False by lia. split; [done|].
  simpl. rewrite list_insert_insert_eq.
  apply list_insert_id. rewrite Ha. f_equal. destruct mp. simpl in *.
  by subst.
Qed.

(** X12.  On a constructed map with no iterator counted, Close on a cursor
    bound to the map panics, but only after it has decremented the count:
    the count is then -1, and Set, Delete and Reset panic until the count is
    back at zero. *)
Theorem X12_failed_Close_locks less h m c it :
  constructed less h m → iter_count h m = Some 0 →
  cursors h !! c = Some it → mi_m it = m →
  ∃ h',
    MapIterator_Close (Some c) h = (Panic msg_Close, h') ∧
    constructed less h' m ∧ iter_count h' m = Some (-1) ∧
    (∀ k v,
       Map_Set m k v h' = (Panic msg_Map_write, h') ∧
       Map_Delete m k h' = (Panic msg_Map_write, h') ∧
       Map_Reset m h' = (Panic msg_Map_write, h')).
Proof.
  intros (a & mp & g & -> & Ha & Hwf & Hl & Hg & _)%constructed_inv Hi Hc Hm.
  apply (iter_count_eq _ _ _ _ Ha) in Hi.
  set (mp' := {| map_iter := atomic_AddInt32 (map_iter mp) (-1);
                 map_keys := map_keys mp; map_less := map_less mp;
                 map_m := map_m mp |}).
  assert (maps (put_Map h a mp') !! a = Some mp') as Ha'
    by by eapply lookup_put_Map.
  assert (map_iter mp' = -1) as Hi' by (simpl; by rewrite Hi).
  exists (put_Map h a mp'). split.
  { erewrite MapIterator_Close_eq by done. fold mp'.
    simpl map_iter in Hi'. by rewrite Hi'. }
  split; [exists mp'; split; [done|by apply wf_Map_iter]|].
  split; [erewrite iter_count_put_Map by done; by rewrite Hi'|].
  intros k v. split_and!.
  - eapply Map_Set_locked; [done..|]. by rewrite Hi'.
  - eapply Map_Delete_locked; [done..|]. by rewrite Hi'.
  - eapply Map_Reset_locked; [done..|]. by rewrite Hi'.
Qed.

(** ** [All] and [Range] *)

Lemma All_loop_for_each h a mp ks (yield : K → V → go K V bool) :
  maps h !! a = Some mp →
  (∀ k v h', maps (yield k v h').2 = maps h') →
  All_loop (Some a) ks yield h =
    for_each
      ((λ k, {| Key := k; Value := default zero (map_index (map_m mp) k) |})
         <$> ks) yield h.
Proof.
  intros Ha Hy. revert h Ha. induction ks as [|k ks IH]; intros h Ha; [done|].
  rewrite fmap_cons. cbn [All_loop for_each Key Value].
  erewrite bind_Ret by by eapply load_Map_eq.
  pose proof (Hy k (default zero (map_index (map_m mp) k)) h) as Hm.
  unfold bind.
  destruct (yield k _ h) as [[[]|msg] h']; simpl in Hm; [|done..].
  apply IH. by rewrite Hm.
Qed.

(** X13.  On a constructed map, All passes to yield the pairs that Range
    returns, in that order, and stops when yield returns false, provided
    that yield changes no map of the store. *)
Theorem X13_All_yields_Range less h m (yield : K → V → go K V bool) :
  constructed less h m →
  (∀ k v h', maps (yield k v h').2 = maps h') →
  ∃ kvs,
    Map_Range m h = (Ret kvs, h) ∧
    Map_All m yield h = for_each kvs yield h.
Proof.
  intros (a & mp & g & -> & Ha & Hwf & Hl & Hg & _)%constructed_inv Hy.
  exists (pairs mp). split; [by eapply Map_Range_eq|].
  unfold Map_All. erewrite bind_Ret by by eapply load_Map_eq.
  by apply All_loop_for_each.
Qed.

(** ** Several maps *)

(** X14.  The iterator count is per map.  On a constructed map with no
    iterator counted, Set, Delete and Reset return whatever the state of the
    other maps of the store, and they change no other map and no cursor. *)
Theorem X14_writes_touch_one_map less h a b k v :
  constructed less h (Some a) → iter_count h (Some a) = Some 0 → a ≠ b →
  (∃ h', Map_Set (Some a) k v h = (Ret (), h') ∧
         maps h' !! b = maps h !! b ∧ cursors h' = cursors h) ∧
  (∃ h', Map_Delete (Some a) k h = (Ret (), h') ∧
         maps h' !! b = maps h !! b ∧ cursors h' = cursors h) ∧
  (∃ h', Map_Reset (Some a) h = (Ret (), h') ∧
         maps h' !! b = maps h !! b ∧ cursors h' = cursors h).
Proof.
  intros (a' & mp & g & [= <-] & Ha & Hwf & Hl & Hg & _)%constructed_inv
    Hi Hne.
  apply (iter_count_eq _ _ _ _ Ha) in Hi.
  split_and!; eexists.
  - split; [by eapply Map_Set_eq|]. by rewrite lookup_put_Map_ne.
  - split; [by eapply Map_Delete_eq|]. by rewrite lookup_put_Map_ne.
  - split; [by eapply Map_Reset_eq|]. by rewrite lookup_put_Map_ne.
Qed.

(** ** Deterministic order *)

(** X15.  Under a strict weak ordering that orders every two distinct keys,
    what Range returns is determined by the contents of the map: two
    constructed maps on which TryGet agrees for every key return the same
    pairs in the same order, however they were filled. *)
Theorem X15_Range_determined_by_contents less h1 h2 m1 m2 :
  StrictWeakOrder less → Connected less →
  constructed less h1 m1 → constructed less h2 m2 →
  (∀ k, (Map_TryGet m1 k h1).1 = (Map_TryGet m2 k h2).1) →
  (Map_Range m1 h1).1 = (Map_Range m2 h2).1.
Proof.
  intros O Hcon
    (a1 & mp1 & g1 & -> & Ha1 & Hwf1 & Hl1 & Hg1 & Hnd1 & Hdom1)%constructed_inv
    (a2 & mp2 & g2 & -> & Ha2 & Hwf2 & Hl2 & Hg2 & Hnd2 & Hdom2)%constructed_inv
    Hget.
  assert (∀ k, default zero (g1 !! k) = default zero (g2 !! k) ∧
               (is_Some (g1 !! k) ↔ is_Some (g2 !! k))) as Hg.
  { intros k. specialize (Hget k).
    erewrite !Map_TryGet_eq in Hget by done.
    rewrite Hg1, Hg2 in Hget. simpl in Hget.
    injection Hget as Hv Hb. split; [done|].
    split; intros Hs.
    - apply (bool_decide_eq_true_2 _) in Hs. rewrite Hb in Hs.
      by apply bool_decide_eq_true in Hs.
    - apply (bool_decide_eq_true_2 _) in Hs. rewrite <- Hb in Hs.
      by apply bool_decide_eq_true in Hs. }
  assert (map_keys mp1 = map_keys mp2) as Hkeys.
  { destruct Hwf1 as (g1' & Hl1' & _ & _ & _ & Hs1).
    destruct Hwf2 as (g2' & Hl2' & _ & _ & _ & Hs2).
    apply (StronglySorted_unique_strong (not_after less));
      [|by apply Hs1|by apply Hs2|].
    - intros x1 x2 _ _ Hx Hx'. unfold not_after in *.
      destruct (decide (x1 = x2)) as [|Hne]; [done|].
      destruct (Hcon x1 x2 Hne); congruence.
    - apply NoDup_Permutation; [done..|].
      intros k. rewrite Hdom1, Hdom2. apply Hg. }
  erewrite !Map_Range_eq by done. simpl. f_equal.
  unfold pairs. rewrite Hkeys, Hg1, Hg2. simpl.
  apply list_fmap_ext. intros _ k _. f_equal. apply Hg.
Qed.

(** ** Cursor calls are read-only *)

Lemma reads_same_content h h' a mp n k less :
  maps h !! a = Some mp → map_less mp = Some less →
  maps h' !! a = Some {| map_iter := n; map_keys := map_keys mp;
                         map_less := map_less mp; map_m := map_m mp |} →
  (Map_Range (Some a) h').1 = (Map_Range (Some a) h).1 ∧
  (Map_TryGet (Some a) k h').1 = (Map_TryGet (Some a) k h).1 ∧
  (Map_Len (Some a) h').1 = (Map_Len (Some a) h).1.
Proof.
  intros Ha Hl Ha'.
  erewrite !Map_Range_eq, !Map_TryGet_eq, !Map_Len_eq by done.
  done.
Qed.

(** X17.  Iter, Close and Next change no key, value or order of a
    constructed map: whatever the cursor, Range, TryGet and Len return
    after each of them what they returned before. *)
Theorem X17_cursor_calls_read_only less h m mi k :
  constructed less h m →
  let same (h' : heap K V) :=
    (Map_Range m h').1 = (Map_Range m h).1 ∧
    (Map_TryGet m k h').1 = (Map_TryGet m k h).1 ∧
    (Map_Len m h').1 = (Map_Len m h).1 in
  same (Map_Iter m h).2 ∧
  same (MapIterator_Close mi h).2 ∧
  same (MapIterator_Next mi h).2.
Proof.
  intros (a & mp & g & -> & Ha & Hwf & Hl & Hg & _)%constructed_inv same.
  unfold same. split; [|split].
  - eapply reads_same_content; [done..|].
    erewrite Map_Iter_eq by done. simpl.
    apply list_lookup_insert_eq. by eapply lookup_lt_Some.
  - destruct (MapIterator_Close_maps h mi a mp Ha) as [n Hn].
    exact (reads_same_content h _ a mp n k less Ha Hl Hn).
  - eapply (reads_same_content _ _ _ _ (map_iter mp)); [done..|].
    rewrite MapIterator_Next_maps, Ha. by destruct mp.
Qed.

End coverage.

(** * Concrete comparators and runs *)

Lemma Less_Z_swo : StrictWeakOrder Less_Z.
Proof.
  unfold Less_Z. split.
  - intros a. apply Z.ltb_irrefl.
  - intros a b c ?%Z.ltb_lt ?%Z.ltb_lt. apply Z.ltb_lt. lia.
  - intros a b c [?%Z.ltb_ge ?%Z.ltb_ge] [?%Z.ltb_ge ?%Z.ltb_ge].
    split; apply Z.ltb_ge; lia.
Qed.

Lemma Less_Z_connected : Connected Less_Z.
Proof.
  intros a b Hne. unfold Less_Z. rewrite !Z.ltb_lt. lia.
Qed.

Lemma Less_tens_swo : StrictWeakOrder Less_tens.
Proof.
  unfold Less_tens. split.
  - intros a. apply Z.ltb_irrefl.
  - intros a b c ?%Z.ltb_lt ?%Z.ltb_lt. apply Z.ltb_lt. lia.
  - intros a b c [?%Z.ltb_ge ?%Z.ltb_ge] [?%Z.ltb_ge ?%Z.ltb_ge].
    split; apply Z.ltb_ge; lia.
Qed.

Lemma C1_Range_sorted_witness :
  StrictWeakOrder Less_Z ∧
  let m := Some 0%nat in
  let h := exec m [CSet 2 20; CSet 1 10; CDelete 2]
             (NewMap (Some Less_Z) empty_heap).2 in
  ∃ kvs : list (KeyValue Z Z),
    Map_Range m h = (Ret kvs, h) ∧
    StronglySorted (not_after Less_Z) (Key <$> kvs) ∧
    (Connected Less_Z → StronglySorted (before Less_Z) (Key <$> kvs)).
Proof.
  split; [exact Less_Z_swo|].
  exact (C1_Range_sorted Less_Z empty_heap [CSet 2 20; CSet 1 10; CDelete 2]
           Less_Z_swo).
Defined.

(** C1 as stated fails: under the strict weak ordering [Less_tens], after
    Set(1, 10) and Set(2, 20) Range returns the keys 1, 2, and 1 does not
    sort before 2. *)
Lemma C1_counterexample :
  StrictWeakOrder Less_tens ∧
  let m := Some 0%nat in
  let h := exec m [CSet 1 10; CSet 2 20]
             (NewMap (Some Less_tens) empty_heap).2 in
  (Map_Range m h).1
    = Ret [{| Key := 1; Value := 10 |}; {| Key := 2; Value := 20 |}] ∧
  ¬ Sorted (before Less_tens) [1; 2].
Proof.
  split; [exact Less_tens_swo|]. split; [by vm_compute|].
  intros Hs. apply Sorted_inv in Hs as [_ Hd]. apply HdRel_inv in Hd.
  discriminate Hd.
Qed.

Lemma C2_writes_guarded_witness :
  let m := Some 0%nat in
  let s0 : session Z Z :=
    {| store := (NewMap (Some Less_Z) empty_heap).2; unclosed := [] |} in
  let cs := [CSet 5 50; CIter; CIter; CClose (Some 0%nat);
             CNext (Some 1%nat); CClose (Some 1%nat)] in
  disciplined m cs s0 ∧
  let s := session_run m cs s0 in
  let n := Z.of_nat (length (unclosed s)) in
  (n `mod` 2 ^ 32 ≠ 0 → ∀ k v,
     Map_Set m k v (store s) = (Panic msg_Map_write, store s) ∧
     Map_Delete m k (store s) = (Panic msg_Map_write, store s) ∧
     Map_Reset m (store s) = (Panic msg_Map_write, store s)) ∧
  (n `mod` 2 ^ 32 = 0 → ∀ k v,
     returns (Map_Set m k v (store s)).1 = true ∧
     returns (Map_Delete m k (store s)).1 = true ∧
     returns (Map_Reset m (store s)).1 = true).
Proof.
  assert (disciplined (Some 0%nat)
    [CSet 5 50; CIter; CIter; CClose (Some 0%nat); CNext (Some 1%nat);
     CClose (Some 1%nat)]
    ({| store := (NewMap (Some Less_Z) empty_heap).2; unclosed := [] |}
       : session Z Z)) as Hd.
  { vm_compute. repeat constructor. }
  split; [exact Hd|].
  exact (C2_writes_guarded Less_Z empty_heap _ Hd).
Defined.

(** C2 as stated fails in two ways.  After Iter, Iter and two calls of Close
    on the first cursor, the second cursor has not been closed and Set
    returns.  After 2^32 calls of Iter, no cursor has been closed and Set
    returns. *)
Lemma C2_counterexample :
  let m := Some 0%nat in
  let s0 : session string Z :=
    {| store := (NewMap (Some Less_string) empty_heap).2; unclosed := [] |} in
  (let s := session_run m
              [CIter; CIter; CClose (Some 0%nat); CClose (Some 0%nat)] s0 in
   unclosed s = [Some 1%nat] ∧
   (Map_Set m "k" 1 (store s)).1 = Ret ()) ∧
  (let s := session_run m (replicate (Z.to_nat (2 ^ 32)) CIter) s0 in
   length (unclosed s) = Z.to_nat (2 ^ 32) ∧
   (Map_Set m "k" 1 (store s)).1 = Ret ()).
Proof.
  intros m s0. split.
  { split; by vm_compute. }
  assert (∀ n, int32 (Z.of_nat n) = 0 →
    length (unclosed (session_run m (replicate n CIter) s0)) = n ∧
    (Map_Set m "k" 1 (store (session_run m (replicate n CIter) s0))).1
      = Ret ()) as Hgen.
  { intros n Hn.
    destruct (session_run_Iter_NewMap (V := Z) Less_string empty_heap n)
      as [((mp & Ha & (g & Hl & Hg & _) & Hi) & _) Hlen].
    split; [exact Hlen|].
    rewrite Hlen, Hn in Hi.
    by rewrite (Map_Set_eq _ _ _ _ _ _ _ Ha Hl Hg Hi). }
  apply (Hgen (Z.to_nat (2 ^ 32))).
  rewrite Z2Nat.id by lia. reflexivity.
Qed.

(** C3: the claim fails on the code.  With a second cursor open, a cursor
    that has been closed is still usable: Next on it returns a pair and a
    second Close on it returns; the write that follows returns too, with the
    second cursor never closed.  Only with no other cursor open does the
    second Close panic, as in the package's test. *)
Theorem C3_closed_cursor_still_usable :
  (use_after_Close empty_heap).1 = Ret (Some {| Key := "foo"; Value := 1 |}) ∧
  (close_twice empty_heap).1 = Panic msg_Close.
Proof. split; by vm_compute. Qed.

(** ** The order of [Less] *)

Lemma Ascii_compare_Lt a b :
  Ascii.compare a b = Lt ↔ (Ascii.N_of_ascii a < Ascii.N_of_ascii b)%N.
Proof. unfold Ascii.compare. apply N.compare_lt_iff. Qed.

Lemma String_compare_refl s : String.compare s s = Eq.
Proof.
  induction s as [|a s IH]; simpl; [done|].
  unfold Ascii.compare. by rewrite N.compare_refl.
Qed.

Lemma String_compare_Lt_trans s1 s2 s3 :
  String.compare s1 s2 = Lt → String.compare s2 s3 = Lt →
  String.compare s1 s3 = Lt.
Proof.
  revert s2 s3. induction s1 as [|a1 s1 IH]; intros [|a2 s2] [|a3 s3];
    simpl; try done.
  intros H12 H23.
  destruct (Ascii.compare a1 a2) eqn:E12; [| |done].
  - apply Ascii.compare_eq_iff in E12 as ->.
    destruct (Ascii.compare a2 a3) eqn:E23; [by eapply IH|done|done].
  - destruct (Ascii.compare a2 a3) eqn:E23; [| |done].
    + apply Ascii.compare_eq_iff in E23 as <-. by rewrite E12.
    + assert (Ascii.compare a1 a3 = Lt) as ->; [|done].
      apply Ascii_compare_Lt in E12. apply Ascii_compare_Lt in E23.
      apply Ascii_compare_Lt. by eapply N.lt_trans.
Qed.

Lemma Less_string_swo : StrictWeakOrder Less_string.
Proof.
  assert (∀ a b, incomparable Less_string a b → a = b) as Hinc.
  { intros a b [Hab Hba]. unfold Less_string, String.ltb in *.
    rewrite String.compare_antisym in Hba.
    destruct (String.compare a b) eqn:E; [|done..].
    by apply String.compare_eq_iff. }
  split.
  - intros a. unfold Less_string, String.ltb.
    by rewrite String_compare_refl.
  - intros a b c. unfold Less_string, String.ltb.
    destruct (String.compare a b) eqn:Eab; [done| |done].
    destruct (String.compare b c) eqn:Ebc; [done| |done].
    by rewrite (String_compare_Lt_trans a b c).
  - intros a b c ->%Hinc ->%Hinc.
    split; unfold Less_string, String.ltb; by rewrite String_compare_refl.
Qed.

Lemma Less_string_connected : Connected Less_string.
Proof.
  intros a b Hne. unfold Less_string, String.ltb.
  rewrite (String.compare_antisym b a).
  destruct (String.compare a b) eqn:E; [|by left|by right].
  by apply String.compare_eq_iff in E.
Qed.

(** X16.  Less, the comparison [a < b] of strings and of integers, is a
    strict weak ordering that orders every two distinct keys. *)
Theorem X16_Less_strict_total :
  StrictWeakOrder Less_string ∧ Connected Less_string ∧
  StrictWeakOrder Less_Z ∧ Connected Less_Z.
Proof.
  split; [exact Less_string_swo|]. split; [exact Less_string_connected|].
  split; [exact Less_Z_swo|exact Less_Z_connected].
Qed.

(** ** The properties at concrete stores *)

Lemma sample_constructed : constructed Less_Z sample (Some 0%nat).
Proof. apply constructed_exec, (NewMap_constructed Less_Z empty_heap). Qed.

Lemma sample_rev_constructed : constructed Less_Z sample_rev (Some 0%nat).
Proof. apply constructed_exec, (NewMap_constructed Less_Z empty_heap). Qed.

Lemma sample_closed_constructed :
  constructed Less_Z sample_closed (Some 0%nat).
Proof. apply constructed_exec, (NewMap_constructed Less_Z empty_heap). Qed.

Lemma sample_two_constructed : constructed Less_Z sample_two (Some 1%nat).
Proof.
  exact (NewMap_constructed Less_Z
           (exec (Some 0%nat) [CSet 1 10; CIter]
              (NewMap (Some Less_Z) empty_heap).2)).
Qed.


Lemma X3_Set_Len_witness :
  constructed Less_Z sample (Some 0%nat) ∧
  iter_count sample (Some 0%nat) = Some 0 ∧
  ∃ n v0 found,
    Map_Len (Some 0%nat) sample = (Ret n, sample) ∧
    Map_TryGet (Some 0%nat) 3 sample = (Ret (v0, found), sample) ∧
    (Map_Len (Some 0%nat) (Map_Set (Some 0%nat) 3 30 sample).2).1
      = Ret (if found then n else S n).
Proof.
  split; [exact sample_constructed|]. split; [reflexivity|].
  exact (X3_Set_Len Less_Z sample (Some 0%nat) 3 30
           sample_constructed eq_refl).
Defined.

Lemma X4_Delete_removes_witness :
  constructed Less_Z sample (Some 0%nat) ∧
  iter_count sample (Some 0%nat) = Some 0 ∧
  ∃ h' kvs v0 found,
    Map_Delete (Some 0%nat) 1 sample = (Ret (), h') ∧
    constructed Less_Z h' (Some 0%nat) ∧
    Map_Range (Some 0%nat) sample = (Ret kvs, sample) ∧
    Map_TryGet (Some 0%nat) 1 sample = (Ret (v0, found), sample) ∧
    Map_TryGet (Some 0%nat) 1 h' = (Ret (zero, false), h') ∧
    (∀ k', k' ≠ 1 →
       (Map_TryGet (Some 0%nat) k' h').1
         = (Map_TryGet (Some 0%nat) k' sample).1) ∧
    Map_Range (Some 0%nat) h'
      = (Ret (filter (λ kv, Key kv ≠ 1) kvs), h') ∧
    (Map_Len (Some 0%nat) h').1
      = Ret (if found then pred (length kvs) else length kvs).
Proof.
  split; [exact sample_constructed|]. split; [reflexivity|].
  exact (X4_Delete_removes Less_Z sample (Some 0%nat) 1
           sample_constructed eq_refl).
Defined.

Lemma X5_Reset_empties_witness :
  constructed Less_Z sample (Some 0%nat) ∧
  iter_count sample (Some 0%nat) = Some 0 ∧
  ∃ h',
    Map_Reset (Some 0%nat) sample = (Ret (), h') ∧
    constructed Less_Z h' (Some 0%nat) ∧
    iter_count h' (Some 0%nat) = Some 0 ∧
    Map_Len (Some 0%nat) h' = (Ret 0%nat, h') ∧
    Map_Range (Some 0%nat) h' = (Ret [], h') ∧
    (∀ k, Map_TryGet (Some 0%nat) k h' = (Ret (zero, false), h')).
Proof.
  split; [exact sample_constructed|]. split; [reflexivity|].
  exact (X5_Reset_empties Less_Z sample (Some 0%nat)
           sample_constructed eq_refl).
Defined.



Lemma X10_Next_nil_is_stable_witness :
  MapIterator_Next (Some 0%nat) sample_cursor = (Ret None, sample_cursor) ∧
  sample_cursor = sample_cursor ∧
  MapIterator_Next (Some 0%nat) sample_cursor = (Ret None, sample_cursor).
Proof.
  split; [reflexivity|].
  exact (X10_Next_nil_is_stable sample_cursor (Some 0%nat) sample_cursor
           eq_refl).
Defined.

Lemma X11_Iter_then_Close_witness :
  constructed Less_Z sample (Some 0%nat) ∧
  iter_count sample (Some 0%nat) = Some 0 ∧
  0 ≤ 0 < 2 ^ 31 - 1 ∧
  ∃ mi h1 h2,
    Map_Iter (Some 0%nat) sample = (Ret mi, h1) ∧
    mi ≫= (cursors sample !!.) = None ∧
    mi ≫= (cursors h1 !!.) = Some {| mi_m := Some 0%nat; mi_i := 0 |} ∧
    iter_count h1 (Some 0%nat) = Some (0 + 1) ∧
    MapIterator_Close mi h1 = (Ret (), h2) ∧
    maps h2 = maps sample.
Proof.
  assert (0 ≤ 0 < 2 ^ 31 - 1) as Hn by lia.
  split; [exact sample_constructed|]. split; [reflexivity|].
  split; [exact Hn|].
  exact (X11_Iter_then_Close Less_Z sample (Some 0%nat) 0
           sample_constructed eq_refl Hn).
Defined.

Lemma X12_failed_Close_locks_witness :
  constructed Less_Z sample_closed (Some 0%nat) ∧
  iter_count sample_closed (Some 0%nat) = Some 0 ∧
  cursors sample_closed !! 0%nat = Some {| mi_m := Some 0%nat; mi_i := 0 |} ∧
  ∃ h',
    MapIterator_Close (Some 0%nat) sample_closed = (Panic msg_Close, h') ∧
    constructed Less_Z h' (Some 0%nat) ∧
    iter_count h' (Some 0%nat) = Some (-1) ∧
    (∀ k v,
       Map_Set (Some 0%nat) k v h' = (Panic msg_Map_write, h') ∧
       Map_Delete (Some 0%nat) k h' = (Panic msg_Map_write, h') ∧
       Map_Reset (Some 0%nat) h' = (Panic msg_Map_write, h')).
Proof.
  split; [exact sample_closed_constructed|]. split; [reflexivity|].
  split; [reflexivity|].
  exact (X12_failed_Close_locks Less_Z sample_closed (Some 0%nat) 0%nat
           {| mi_m := Some 0%nat; mi_i := 0 |}
           sample_closed_constructed eq_refl eq_refl eq_refl).
Defined.

Lemma X13_All_yields_Range_witness :
  let yield : Z → Z → go Z Z bool := λ k _, ret (Z.ltb k 2) in
  constructed Less_Z sample (Some 0%nat) ∧
  (∀ k v h', maps (yield k v h').2 = maps h') ∧
  ∃ kvs,
    Map_Range (Some 0%nat) sample = (Ret kvs, sample) ∧
    Map_All (Some 0%nat) yield sample = for_each kvs yield sample.
Proof.
  intros yield.
  assert (∀ k v (h' : heap Z Z), maps (yield k v h').2 = maps h') as Hy
    by reflexivity.
  split; [exact sample_constructed|]. split; [exact Hy|].
  exact (X13_All_yields_Range Less_Z sample (Some 0%nat) yield
           sample_constructed Hy).
Defined.

Lemma X14_writes_touch_one_map_witness :
  constructed Less_Z sample_two (Some 1%nat) ∧
  iter_count sample_two (Some 1%nat) = Some 0 ∧
  iter_count sample_two (Some 0%nat) = Some 1 ∧
  1%nat ≠ 0%nat ∧
  (∃ h', Map_Set (Some 1%nat) 7 70 sample_two = (Ret (), h') ∧
         maps h' !! 0%nat = maps sample_two !! 0%nat ∧
         cursors h' = cursors sample_two) ∧
  (∃ h', Map_Delete (Some 1%nat) 7 sample_two = (Ret (), h') ∧
         maps h' !! 0%nat = maps sample_two !! 0%nat ∧
         cursors h' = cursors sample_two) ∧
  (∃ h', Map_Reset (Some 1%nat) sample_two = (Ret (), h') ∧
         maps h' !! 0%nat = maps sample_two !! 0%nat ∧
         cursors h' = cursors sample_two).
Proof.
  assert (1%nat ≠ 0%nat) as Hne by lia.
  split; [exact sample_two_constructed|]. split; [reflexivity|].
  split; [reflexivity|]. split; [exact Hne|].
  exact (X14_writes_touch_one_map Less_Z sample_two 1%nat 0%nat 7 70
           sample_two_constructed eq_refl Hne).
Defined.

Lemma X15_Range_determined_by_contents_witness :
  StrictWeakOrder Less_Z ∧ Connected Less_Z ∧
  constructed Less_Z sample (Some 0%nat) ∧
  constructed Less_Z sample_rev (Some 0%nat) ∧
  (∀ k, (Map_TryGet (Some 0%nat) k sample).1
        = (Map_TryGet (Some 0%nat) k sample_rev).1) ∧
  (Map_Range (Some 0%nat) sample).1 = (Map_Range (Some 0%nat) sample_rev).1.
Proof.
  assert (∀ k, (Map_TryGet (Some 0%nat) k sample).1
               = (Map_TryGet (Some 0%nat) k sample_rev).1) as Hget.
  { intros k. vm_compute. reflexivity. }
  split; [exact Less_Z_swo|]. split; [exact Less_Z_connected|].
  split; [exact sample_constructed|]. split; [exact sample_rev_constructed|].
  split; [exact Hget|].
  exact (X15_Range_determined_by_contents Less_Z sample sample_rev
           (Some 0%nat) (Some 0%nat) Less_Z_swo Less_Z_connected
           sample_constructed sample_rev_constructed Hget).
Defined.

Lemma X17_cursor_calls_read_only_witness :
  constructed Less_Z sample_closed (Some 0%nat) ∧
  let same (h' : heap Z Z) :=
    (Map_Range (Some 0%nat) h').1 = (Map_Range (Some 0%nat) sample_closed).1 ∧
    (Map_TryGet (Some 0%nat) 1 h').1
      = (Map_TryGet (Some 0%nat) 1 sample_closed).1 ∧
    (Map_Len (Some 0%nat) h').1 = (Map_Len (Some 0%nat) sample_closed).1 in
  same (Map_Iter (Some 0%nat) sample_closed).2 ∧
  same (MapIterator_Close (Some 0%nat) sample_closed).2 ∧
  same (MapIterator_Next (Some 0%nat) sample_closed).2.
Proof.
  split; [exact sample_closed_constructed|].
  exact (X17_cursor_calls_read_only Less_Z sample_closed (Some 0%nat)
           (Some 0%nat) 1 sample_closed_constructed).
Defined.
